(** * netlib.odict: an ordered multimap of (key, value) entries

    Shallow embedding of [src/netlib/odict.py].  Texts are Python [str]
    values whose code points lie in 0..255 (one [ascii] per code point);
    wire bytes are integers in 0..255.  An [ODict] is modelled by its
    class (base or caseless) and its [lst], the list of [[k, v]] entries.
    The second half of the file adds a heap of Python objects to reason
    about sharing between maps (copy, snapshots). *)

From Stdlib Require Import Ascii String List Bool Arith Lia ZArith.
From stdpp Require Import base list.
Import ListNotations.
Open Scope bool_scope.

Definition text := string.

(** A Python entry [[k, v]]. *)
Definition entry : Type := (text * text)%type.

(** ** Key conversion ([_kconv]) *)

(** [str.lower] on one code point of 0..255: A-Z and the Latin-1
    capitals U+00C0..U+00DE (without U+00D7) move down by 32. *)
Definition lower_char (c : ascii) : ascii :=
  let n := nat_of_ascii c in
  if ((65 <=? n) && (n <=? 90)) || ((192 <=? n) && (n <=? 222) && negb (n =? 215))
  then ascii_of_nat (n + 32) else c.

Fixpoint lower (s : text) : text :=
  match s with
  | EmptyString => EmptyString
  | String c s' => String (lower_char c) (lower s')
  end.

(** [ODict._kconv] is the identity, [ODictCaseless._kconv] is [s.lower()];
    [caseless] says which class the object belongs to. *)
Definition kconv (caseless : bool) (s : text) : text :=
  if caseless then lower s else s.

Record ODict := mkODict { caseless : bool; lst : list entry }.

(** [ODict.__init__(lst)]: [self.lst = lst or []] *)
Definition ODict_init (c : bool) (l : list entry) : ODict := mkODict c l.

(** ** Lookup *)

(** [__getitem__]: the loop appends to [ret]. *)
Fixpoint getitem_loop (c : bool) (k : text) (ret : list text) (l : list entry)
  : list text :=
  match l with
  | [] => ret
  | i :: l' =>
      if String.eqb (kconv c (fst i)) k
      then getitem_loop c k (ret ++ [snd i]) l'
      else getitem_loop c k ret l'
  end.

Definition getitem (m : ODict) (k : text) : list text :=
  getitem_loop (caseless m) (kconv (caseless m) k) [] (lst m).

(** [__contains__] *)
Fixpoint contains_loop (c : bool) (k : text) (l : list entry) : bool :=
  match l with
  | [] => false
  | i :: l' =>
      if String.eqb (kconv c (fst i)) (kconv c k) then true
      else contains_loop c k l'
  end.

Definition contains (m : ODict) (k : text) : bool :=
  contains_loop (caseless m) k (lst m).

(** ** Mutation *)

(** [add]: [self.lst.append([key, value])] *)
Definition add (m : ODict) (key value : text) : ODict :=
  mkODict (caseless m) (lst m ++ [(key, value)]).

(** [_filter_lst] and [__delitem__] *)
Fixpoint filter_loop (c : bool) (k : text) (new : list entry) (l : list entry)
  : list entry :=
  match l with
  | [] => new
  | i :: l' =>
      if negb (String.eqb (kconv c (fst i)) k)
      then filter_loop c k (new ++ [i]) l'
      else filter_loop c k new l'
  end.

Definition filter_lst (c : bool) (k : text) (l : list entry) : list entry :=
  filter_loop c (kconv c k) [] l.

Definition delitem (m : ODict) (k : text) : ODict :=
  mkODict (caseless m) (filter_lst (caseless m) k (lst m)).

(** The second argument of [__setitem__]: the code tells a [str] apart
    from the list of values it consumes with [pop(0)]. *)
Inductive valuearg :=
| VAStr (s : text)
| VAList (vs : list text).

Inductive pyexc :=
| ValueError (msg : string).

Definition setitem_msg : string :=
  "Expected list of values instead of string. Example: odict['Host'] = ['www.example.com']".

(** The [for i in self.lst] loop of [__setitem__]: it returns the list
    [new] and what is left of [valuelist]. *)
Fixpoint setitem_walk (c : bool) (kc k : text) (new : list entry)
         (valuelist : list text) (l : list entry) : list entry * list text :=
  match l with
  | [] => (new, valuelist)
  | i :: l' =>
      if String.eqb (kconv c (fst i)) kc then
        match valuelist with
        | v :: vl' => setitem_walk c kc k (new ++ [(k, v)]) vl' l'
        | [] => setitem_walk c kc k new [] l'
        end
      else setitem_walk c kc k (new ++ [i]) valuelist l'
  end.

(** The [while valuelist] loop. *)
Fixpoint setitem_drain (k : text) (new : list entry) (valuelist : list text)
  : list entry :=
  match valuelist with
  | [] => new
  | v :: vl' => setitem_drain k (new ++ [(k, v)]) vl'
  end.

(** [__setitem__(k, valuelist)]: the new object and the exception raised,
    if any. *)
Definition setitem (m : ODict) (k : text) (valuelist : valuearg)
  : ODict * option pyexc :=
  match valuelist with
  | VAStr _ => (m, Some (ValueError setitem_msg))
  | VAList vl =>
      let kc := kconv (caseless m) k in
      let '(new, rest) := setitem_walk (caseless m) kc k [] vl (lst m) in
      (mkODict (caseless m) (setitem_drain k new rest), None)
  end.

(** ** Serialisation *)

(** Python [bytes]: a list of integers in 0..255. *)
Definition bytes := list Z.

(** UTF-8 encoding of a code point of 0..255. *)
Definition utf8_char (c : ascii) : bytes :=
  let n := Z.of_nat (nat_of_ascii c) in
  if (n <? 128)%Z then [n]
  else [Z.lor 192 (Z.shiftr n 6); Z.lor 128 (Z.land n 63)].

Fixpoint utf8_encode (s : text) : bytes :=
  match s with
  | EmptyString => []
  | String c s' => utf8_char c ++ utf8_encode s'
  end.

(** [str_to_bytes] inside [format]: entries hold [str], which has
    [encode]. *)
Definition str_to_bytes (s : text) : bytes := utf8_encode s.

(** [b": "] and [b"\r\n"] *)
Definition colon_sp : bytes := [58; 32]%Z.
Definition crlf : bytes := [13; 10]%Z.

(** [sep.join(elements)] on bytes. *)
Fixpoint bytes_join (sep : bytes) (elements : list bytes) : bytes :=
  match elements with
  | [] => []
  | [x] => x
  | x :: rest => x ++ sep ++ bytes_join sep rest
  end.

Fixpoint format_loop (elements : list bytes) (l : list entry) : list bytes :=
  match l with
  | [] => elements
  | itm :: l' =>
      format_loop (elements ++ [str_to_bytes (fst itm) ++ colon_sp ++ str_to_bytes (snd itm)]) l'
  end.

Definition format (m : ODict) : bytes :=
  bytes_join crlf (format_loop [] (lst m) ++ [[]]).

(** ** Snapshots *)

(** [get_state]: [[tuple(i) for i in self.lst]]; a tuple of two [str] is
    an immutable value. *)
Definition state := list (text * text).

Definition get_state (m : ODict) : state := map (fun i => (fst i, snd i)) (lst m).

(** [load_state] and the class method [from_state]. *)
Definition load_state (m : ODict) (st : state) : ODict :=
  mkODict (caseless m) (map (fun i => (fst i, snd i)) st).

Definition from_state (klass : bool) (st : state) : ODict :=
  ODict_init klass (map (fun i => (fst i, snd i)) st).

(** [__eq__]: [self.lst == other.lst] *)
Fixpoint lst_eqb (l1 l2 : list entry) : bool :=
  match l1, l2 with
  | [], [] => true
  | a :: l1', b :: l2' =>
      String.eqb (fst a) (fst b) && String.eqb (snd a) (snd b) && lst_eqb l1' l2'
  | _, _ => false
  end.

Definition odict_eqb (m1 m2 : ODict) : bool := lst_eqb (lst m1) (lst m2).

(** ** Regular-expression replacement *)

Section Replace.

(** [re.subn(pattern, repl, target)] of Python's [re] module: the new
    text and the number of substitutions, for a well-formed pattern. *)
Variable re_subn : text -> text -> text -> text * nat.

(** [safe_subn] casts pattern and replacement with [str()], which is the
    identity on [str]. *)
Definition safe_subn (pattern repl target : text) : text * nat :=
  re_subn pattern repl target.

Fixpoint replace_loop (pattern repl : text) (nlst : list entry) (count : nat)
         (l : list entry) : list entry * nat :=
  match l with
  | [] => (nlst, count)
  | i :: l' =>
      let '(k, c1) := safe_subn pattern repl (fst i) in
      let count := count + c1 in
      let '(v, c2) := safe_subn pattern repl (snd i) in
      let count := count + c2 in
      replace_loop pattern repl (nlst ++ [(k, v)]) count l'
  end.

(** [replace]: the updated object and the returned count. *)
Definition replace (m : ODict) (pattern repl : text) : ODict * nat :=
  let '(nlst, count) := replace_loop pattern repl [] 0 (lst m) in
  (mkODict (caseless m) nlst, count).

End Replace.

(** [re.subn] for a pattern without metacharacters: non-overlapping
    occurrences from left to right (a nonempty pattern matches its own
    text only; the empty pattern matches at every position). *)
Fixpoint re_subn_literal_aux (fuel : nat) (pattern repl t : text) : text * nat :=
  match fuel with
  | 0 => (t, 0)
  | S f =>
      if String.prefix pattern t && negb (String.eqb pattern EmptyString) then
        let '(r, n) := re_subn_literal_aux f pattern repl
                         (String.substring (String.length pattern)
                                           (String.length t) t) in
        ((repl ++ r)%string, S n)
      else
        match t with
        | EmptyString =>
            if String.eqb pattern EmptyString then (repl, 1) else (EmptyString, 0)
        | String c t' =>
            let '(r, n) := re_subn_literal_aux f pattern repl t' in
            if String.eqb pattern EmptyString
            then ((repl ++ String c r)%string, S n)
            else (String c r, n)
        end
  end.

Definition re_subn_literal (pattern repl t : text) : text * nat :=
  re_subn_literal_aux (S (String.length t)) pattern repl t.

(** ** [copy] *)

(** [self.__class__(copy.deepcopy(self.lst))] on the values: the entry
    lists are rebuilt, the [str] inside are kept. *)
Definition copy (m : ODict) : ODict :=
  ODict_init (caseless m) (map (fun i => (fst i, snd i)) (lst m)).

(** ** The rest of the interface *)


(** [__len__] *)
Definition odict_len (m : ODict) : nat := length (lst m).

(** [items]: [self.lst[:]] *)
Definition items (m : ODict) : list entry := lst m.

(** [keys]: [list(set([self._kconv(i[0]) for i in self.lst]))].  The
    order of a Python [set] is not specified; this keeps the first
    occurrence of each key, and only the order-free facts (which keys,
    each once) are proved. *)
Fixpoint dedup (seen : list text) (l : list text) : list text :=
  match l with
  | [] => rev seen
  | s :: l' => if existsb (String.eqb s) seen then dedup seen l' else dedup (s :: seen) l'
  end.

Definition keys (m : ODict) : list text :=
  dedup [] (map (fun i => kconv (caseless m) (fst i)) (lst m)).

(** [get(k, d)]: [self[k]] if [k in self], else [d] (of any type). *)
Definition get {A : Type} (m : ODict) (k : text) (d : A) : list text + A :=
  if contains m k then inl (getitem m k) else inr d.

(** [get_first(k, d)]: [self[k][0]] if [k in self], else [d]; the index
    is taken only under the [k in self] test. *)
Definition get_first {A : Type} (m : ODict) (k : text) (d : A) : option (text + A) :=
  if contains m k then
    match getitem m k with
    | v :: _ => Some (inl v)
    | [] => None  (* IndexError *)
    end
  else Some (inr d).

(** [extend(other)]: [self.lst.extend(other.lst)] *)
Definition extend (m other : ODict) : ODict :=
  mkODict (caseless m) (lst m ++ lst other).

(** Python's [value in i] on [str]. *)
Fixpoint str_in (sub s : text) : bool :=
  String.prefix sub s ||
  match s with
  | EmptyString => false
  | String _ s' => str_in sub s'
  end.

(** [in_any(key, value, caseless)] *)
Fixpoint in_any_loop (caseless_v : bool) (value : text) (vs : list text) : bool :=
  match vs with
  | [] => false
  | i :: vs' =>
      let i := if caseless_v then lower i else i in
      if str_in value i then true else in_any_loop caseless_v value vs'
  end.

Definition in_any (m : ODict) (key value : text) (caseless_v : bool) : bool :=
  let value := if caseless_v then lower value else value in
  in_any_loop caseless_v value (getitem m key).

(** [match_re(expr)], over [re.search(expr, s)] of Python's [re] module
    (a parameter): each entry is matched as ["%s: %s" % (k, v)]. *)
Fixpoint match_re_loop (re_search : text -> text -> bool) (expr : text)
         (l : list entry) : bool :=
  match l with
  | [] => false
  | (k, v) :: l' =>
      let s := (k ++ ": " ++ v)%string in
      if re_search expr s then true else match_re_loop re_search expr l'
  end.

Definition match_re (re_search : text -> text -> bool) (m : ODict) (expr : text) : bool :=
  match_re_loop re_search expr (lst m).

(** * Objects and sharing

    Python objects on a heap: the [ODict] instance holds a reference to
    its [lst], a Python list of references to the entry lists [[k, v]],
    which hold (immutable) [str] values.  A location is an index in the
    heap; a new object goes at the end. *)
Module Heap.

Abbreviation loc := nat.

Inductive val :=
| VStr (s : text)
| VRef (l : loc).

Inductive obj :=
| OList (vs : list val)
| OInst (caseless : bool) (lst : loc).

Abbreviation heap := (list obj).

Definition alloc (h : heap) (o : obj) : loc * heap := (length h, h ++ [o]).

Definition read_lst (h : heap) (l : loc) : option (list val) :=
  match h !! l with
  | Some (OList vs) => Some vs
  | _ => None
  end.

Definition read_entry (h : heap) (v : val) : option entry :=
  match v with
  | VRef l =>
      match h !! l with
      | Some (OList [VStr k; VStr x]) => Some (k, x)
      | _ => None
      end
  | VStr _ => None
  end.

Fixpoint read_entries (h : heap) (vs : list val) : option (list entry) :=
  match vs with
  | [] => Some []
  | v :: vs' =>
      match read_entry h v, read_entries h vs' with
      | Some e, Some es => Some (e :: es)
      | _, _ => None
      end
  end.

(** The value of the instance at [x], as the pure model sees it. *)
Definition view (h : heap) (x : loc) : option ODict :=
  match h !! x with
  | Some (OInst c l) =>
      match read_lst h l with
      | Some vs =>
          match read_entries h vs with
          | Some es => Some (mkODict c es)
          | None => None
          end
      | None => None
      end
  | _ => None
  end.

Fixpoint refs (vs : list val) : list loc :=
  match vs with
  | [] => []
  | VRef l :: vs' => l :: refs vs'
  | VStr _ :: vs' => refs vs'
  end.

(** The mutable objects of the instance at [x]: itself, its [lst] and
    the entry lists. *)
Definition reach (h : heap) (x : loc) : list loc :=
  match h !! x with
  | Some (OInst c l) =>
      x :: l :: match read_lst h l with Some vs => refs vs | None => [] end
  | _ => [x]
  end.

(** [self.lst = new] *)
Definition rebind (h : heap) (x : loc) (c : bool) (new : list val) : heap :=
  let '(nl, h1) := alloc h (OList new) in
  <[x := OInst c nl]> h1.

(** [add]: [self.lst.append([key, value])], in place on [lst]. *)
Definition h_add (h : heap) (x : loc) (key value : text) : heap :=
  match h !! x with
  | Some (OInst c l) =>
      match read_lst h l with
      | Some vs =>
          let '(e, h1) := alloc h (OList [VStr key; VStr value]) in
          <[l := OList (vs ++ [VRef e])]> h1
      | None => h
      end
  | _ => h
  end.

(** [__setitem__]: the [for] loop keeps a non-matching entry object
    itself and builds a new entry list [[k, v]] for each value used. *)
Fixpoint h_setitem_walk (c : bool) (kc k : text) (h : heap) (new : list val)
         (valuelist : list text) (vs : list val) : heap * list val * list text :=
  match vs with
  | [] => (h, new, valuelist)
  | i :: vs' =>
      match read_entry h i with
      | Some (ik, _) =>
          if String.eqb (kconv c ik) kc then
            match valuelist with
            | v :: vl' =>
                let '(e, h1) := alloc h (OList [VStr k; VStr v]) in
                h_setitem_walk c kc k h1 (new ++ [VRef e]) vl' vs'
            | [] => h_setitem_walk c kc k h new [] vs'
            end
          else h_setitem_walk c kc k h (new ++ [i]) valuelist vs'
      | None => h_setitem_walk c kc k h (new ++ [i]) valuelist vs'
      end
  end.

Fixpoint h_setitem_drain (k : text) (h : heap) (new : list val)
         (valuelist : list text) : heap * list val :=
  match valuelist with
  | [] => (h, new)
  | v :: vl' =>
      let '(e, h1) := alloc h (OList [VStr k; VStr v]) in
      h_setitem_drain k h1 (new ++ [VRef e]) vl'
  end.

Definition h_setitem (h : heap) (x : loc) (k : text) (valuelist : valuearg)
  : heap * option pyexc :=
  match valuelist with
  | VAStr _ => (h, Some (ValueError setitem_msg))
  | VAList vl =>
      match h !! x with
      | Some (OInst c l) =>
          match read_lst h l with
          | Some vs =>
              let '(h1, new, rest) := h_setitem_walk c (kconv c k) k h [] vl vs in
              let '(h2, new2) := h_setitem_drain k h1 new rest in
              (rebind h2 x c new2, None)
          | None => (h, None)
          end
      | _ => (h, None)
      end
  end.

(** [__delitem__]: the kept entry objects go into a new list. *)
Fixpoint h_filter (c : bool) (kc : text) (h : heap) (vs : list val) : list val :=
  match vs with
  | [] => []
  | i :: vs' =>
      match read_entry h i with
      | Some (ik, _) =>
          if String.eqb (kconv c ik) kc then h_filter c kc h vs'
          else i :: h_filter c kc h vs'
      | None => i :: h_filter c kc h vs'
      end
  end.

Definition h_delitem (h : heap) (x : loc) (k : text) : heap :=
  match h !! x with
  | Some (OInst c l) =>
      match read_lst h l with
      | Some vs => rebind h x c (h_filter c (kconv c k) h vs)
      | None => h
      end
  | _ => h
  end.

(** [[list(i) for i in state]]: a new entry list per tuple. *)
Fixpoint alloc_entries (h : heap) (st : state) : heap * list val :=
  match st with
  | [] => (h, [])
  | (k, v) :: st' =>
      let '(e, h1) := alloc h (OList [VStr k; VStr v]) in
      let '(h2, es) := alloc_entries h1 st' in
      (h2, VRef e :: es)
  end.

(** [get_state]: a fresh Python list of tuples of [str], a value. *)
Definition h_get_state (h : heap) (x : loc) : option state :=
  match view h x with
  | Some d => Some (get_state d)
  | None => None
  end.

(** [load_state] *)
Definition h_load_state (h : heap) (x : loc) (st : state) : heap :=
  match h !! x with
  | Some (OInst c _) =>
      let '(h1, es) := alloc_entries h st in
      rebind h1 x c es
  | _ => h
  end.

(** [from_state]: [klass([list(i) for i in state])] *)
Definition h_from_state (klass : bool) (st : state) (h : heap) : loc * heap :=
  let '(h1, es) := alloc_entries h st in
  let '(nl, h2) := alloc h1 (OList es) in
  alloc h2 (OInst klass nl).

(** [copy.deepcopy(self.lst)]: the memo maps each entry object already
    copied to its copy, so an entry object listed twice is copied once.
    An entry holds [str] values, which [deepcopy] returns as they are. *)
Fixpoint memo_find (memo : list (loc * loc)) (l : loc) : option loc :=
  match memo with
  | [] => None
  | (a, b) :: memo' => if Nat.eqb a l then Some b else memo_find memo' l
  end.

Fixpoint deepcopy_items (h : heap) (memo : list (loc * loc)) (vs : list val)
  : heap * list val :=
  match vs with
  | [] => (h, [])
  | VStr s :: vs' =>
      let '(h1, ns) := deepcopy_items h memo vs' in (h1, VStr s :: ns)
  | VRef l :: vs' =>
      match memo_find memo l with
      | Some l' =>
          let '(h1, ns) := deepcopy_items h memo vs' in (h1, VRef l' :: ns)
      | None =>
          match h !! l with
          | Some (OList evs) =>
              let '(l', h1) := alloc h (OList evs) in
              let '(h2, ns) := deepcopy_items h1 ((l, l') :: memo) vs' in
              (h2, VRef l' :: ns)
          | _ =>
              let '(h1, ns) := deepcopy_items h memo vs' in (h1, VRef l :: ns)
          end
      end
  end.

(** [copy]: [self.__class__(copy.deepcopy(self.lst))]. *)
Definition h_copy (h : heap) (x : loc) : loc * heap :=
  match h !! x with
  | Some (OInst c l) =>
      match read_lst h l with
      | Some vs =>
          let '(nl, h1) := alloc h (OList []) in
          let '(h2, ns) := deepcopy_items h1 [] vs in
          let h3 := <[nl := OList ns]> h2 in
          alloc h3 (OInst c nl)
      | None => (x, h)
      end
  | _ => (x, h)
  end.

(** The mutating operations a caller can apply to an instance. *)
Inductive cmd :=
| CAdd (k v : text)
| CSet (k : text) (valuelist : valuearg)
| CDel (k : text)
| CLoad (st : state).

Definition exec (h : heap) (x : loc) (c : cmd) : heap :=
  match c with
  | CAdd k v => h_add h x k v
  | CSet k vl => fst (h_setitem h x k vl)
  | CDel k => h_delitem h x k
  | CLoad st => h_load_state h x st
  end.

Fixpoint run (h : heap) (x : loc) (cs : list cmd) : heap :=
  match cs with
  | [] => h
  | c :: cs' => run (exec h x c) x cs'
  end.

(** [h'] differs from [h] only in the objects [S] and in new objects. *)
Definition mutates_only (S : list loc) (h h' : heap) : Prop :=
  length h <= length h' /\
  forall l, l < length h -> ~ In l S -> h' !! l = h !! l.

(** [ODict.__init__(lst)] on an existing Python list [l]:
    [self.lst = lst or []] keeps [l] itself unless it is empty, when a
    new empty list is made. *)
Definition h_init (h : heap) (c : bool) (l : loc) : loc * heap :=
  match read_lst h l with
  | Some [] =>
      let '(nl, h1) := alloc h (OList []) in
      alloc h1 (OInst c nl)
  | _ => alloc h (OInst c l)
  end.

(** [items]: [self.lst[:]], a new list of the same entry objects. *)
Definition h_items (h : heap) (x : loc) : loc * heap :=
  match h !! x with
  | Some (OInst c l) =>
      match read_lst h l with
      | Some vs => alloc h (OList vs)
      | None => (x, h)
      end
  | _ => (x, h)
  end.

(** Python [target.append(v)] on a list object. *)
Definition h_list_append (h : heap) (target : loc) (v : val) : heap :=
  match read_lst h target with
  | Some vs => <[target := OList (vs ++ [v])]> h
  | None => h
  end.

End Heap.

(** * The spec's descriptions, for comparison with the code *)

Definition key_matches (c : bool) (k : text) (e : entry) : bool :=
  String.eqb (kconv c (fst e)) (kconv c k).

(** [set_values(key, value_list)] as the spec describes it: the [j]-th
    matching entry becomes [(key, value_list[j])] while there is such a
    value and is dropped otherwise; the values not used go at the end. *)
Fixpoint rewrite_matches (c : bool) (k : text) (vl : list text) (j : nat)
         (l : list entry) : list entry :=
  match l with
  | [] => []
  | e :: l' =>
      if key_matches c k e then
        match nth_error vl j with
        | Some v => (k, v) :: rewrite_matches c k vl (S j) l'
        | None => rewrite_matches c k vl (S j) l'
        end
      else e :: rewrite_matches c k vl j l'
  end.

Definition count_matches (c : bool) (k : text) (l : list entry) : nat :=
  length (List.filter (key_matches c k) l).

Definition set_values_spec (c : bool) (k : text) (vl : list text) (l : list entry)
  : list entry :=
  rewrite_matches c k vl 0 l ++ map (fun v => (k, v)) (skipn (count_matches c k l) vl).

(** [get_all(key)]: the values of the matching entries, in order. *)
Definition get_all_spec (c : bool) (k : text) (l : list entry) : list text :=
  map snd (List.filter (key_matches c k) l).

(** [format()]: every line followed by CRLF. *)
Definition line (e : entry) : bytes :=
  str_to_bytes (fst e) ++ colon_sp ++ str_to_bytes (snd e).

Definition format_spec (l : list entry) : bytes :=
  concat (map (fun e => line e ++ crlf) l).

(** The bytes of an ASCII literal. *)
Definition ascii_bytes (s : string) : bytes :=
  map (fun a => Z.of_nat (nat_of_ascii a)) (list_ascii_of_string s).

(** [replace(pattern, repl)]: each key and value substituted on its own,
    the counts added up. *)
Definition replace_spec (re_subn : text -> text -> text -> text * nat)
           (pattern repl : text) (l : list entry) : list entry * nat :=
  (map (fun e => (fst (re_subn pattern repl (fst e)), fst (re_subn pattern repl (snd e)))) l,
   list_sum (map (fun e => snd (re_subn pattern repl (fst e)) + snd (re_subn pattern repl (snd e))) l)).

(** * Proofs *)

Lemma skipn_nth_error {A} (vl : list A) (j : nat) :
  skipn j vl = match nth_error vl j with
               | Some v => v :: skipn (S j) vl
               | None => []
               end.
Proof.
  revert vl; induction j as [|j IH]; intros [|a vl]; simpl; auto.
Qed.

Lemma setitem_walk_spec (c : bool) (k : text) (vl : list text) :
  forall (l : list entry) (new : list entry) (j : nat),
    setitem_walk c (kconv c k) k new (skipn j vl) l =
    (new ++ rewrite_matches c k vl j l, skipn (j + count_matches c k l) vl).
Proof.
  unfold count_matches.
  induction l as [|e l IH]; intros new j; simpl.
  - rewrite app_nil_r, Nat.add_0_r; reflexivity.
  - change (String.eqb (kconv c (fst e)) (kconv c k)) with (key_matches c k e).
    destruct (key_matches c k e) eqn:Hm; simpl.
    + rewrite (skipn_nth_error vl j).
      destruct (nth_error vl j) as [v|] eqn:Hn.
      * rewrite IH, <- app_assoc, Nat.add_succ_r; reflexivity.
      * assert (Hs : skipn (S j) vl = []).
        { apply nth_error_None in Hn. apply skipn_all2. lia. }
        rewrite <- Hs, IH, Nat.add_succ_r; reflexivity.
    + rewrite IH, <- app_assoc; reflexivity.
Qed.

Lemma setitem_drain_app (k : text) (vl : list text) :
  forall new, setitem_drain k new vl = new ++ map (fun v => (k, v)) vl.
Proof.
  induction vl as [|v vl IH]; intros new; simpl.
  - rewrite app_nil_r; reflexivity.
  - rewrite IH, <- app_assoc; reflexivity.
Qed.

(** C1: on a list of values, [set_values] overwrites the first matching
    entries in place with [(key, value)] (the stored key becomes the
    caller's [key]), drops the further matching entries once the values
    are used up, keeps the other entries where they are, and appends the
    values left over as [(key, value)] entries in order. *)
Theorem setitem_list_spec (m : ODict) (k : text) (vl : list text) :
  setitem m k (VAList vl) =
  (mkODict (caseless m) (set_values_spec (caseless m) k vl (lst m)), None).
Proof.
  unfold setitem, set_values_spec.
  pose proof (setitem_walk_spec (caseless m) k vl (lst m) [] 0) as H.
  rewrite skipn_O, app_nil_l in H. simpl in H.
  cbv zeta. rewrite H, setitem_drain_app; reflexivity.
Qed.

Example setitem_overwrite_append :
  setitem (mkODict false [("a", "1"); ("b", "x"); ("a", "2")]%string) "a"%string
          (VAList ["9"; "8"; "7"]%string) =
  (mkODict false [("a", "9"); ("b", "x"); ("a", "8"); ("a", "7")]%string, None).
Proof. reflexivity. Qed.

Example setitem_truncate :
  setitem (mkODict false [("a", "1"); ("a", "2"); ("a", "3")]%string) "a"%string
          (VAList ["9"]%string) =
  (mkODict false [("a", "9")]%string, None).
Proof. reflexivity. Qed.

Example setitem_caseless_key :
  setitem (mkODict true [("Host", "1")]%string) "HOST"%string (VAList ["2"]%string) =
  (mkODict true [("HOST", "2")]%string, None).
Proof. reflexivity. Qed.

(** C2: [set_values] raises [ValueError] exactly when it is given a
    [str] instead of a list of values, and then leaves the map (both the
    value and, on the heap, every object) as it was. *)
Theorem setitem_str_rejected (m : ODict) (k : text) (a : valuearg) :
  (snd (setitem m k a) = Some (ValueError setitem_msg) <-> exists s, a = VAStr s) /\
  (forall e, snd (setitem m k a) = Some e -> fst (setitem m k a) = m) /\
  (forall h x e, snd (Heap.h_setitem h x k a) = Some e -> fst (Heap.h_setitem h x k a) = h).
Proof.
  split; [|split].
  - destruct a as [s|vl]; simpl.
    + split; [eauto | reflexivity].
    + destruct (setitem_walk _ _ _ _ _ _); simpl.
      split; [discriminate | intros [s Hs]; discriminate].
  - intros e; destruct a as [s|vl]; simpl; [reflexivity|].
    destruct (setitem_walk _ _ _ _ _ _); simpl; discriminate.
  - intros h x e; destruct a as [s|vl]; simpl; [reflexivity|].
    destruct (h !! x) as [[vs|c l]|]; simpl; try discriminate.
    destruct (Heap.read_lst h l); simpl; try discriminate.
    destruct (Heap.h_setitem_walk _ _ _ _ _ _ _) as [[h1 new] rest].
    destruct (Heap.h_setitem_drain _ _ _ _); simpl; discriminate.
Qed.

Example setitem_host_str :
  setitem (mkODict true [("Host", "a")]%string) "Host"%string (VAStr "example.com"%string) =
  (mkODict true [("Host", "a")]%string, Some (ValueError setitem_msg)).
Proof. reflexivity. Qed.

Lemma setitem_walk_nil (c : bool) (kc k : text) :
  forall l new, setitem_walk c kc k new [] l = (filter_loop c kc new l, []).
Proof.
  induction l as [|i l IH]; intros new; simpl; [reflexivity|].
  destruct (String.eqb (kconv c (fst i)) kc); simpl; apply IH.
Qed.

Lemma h_setitem_walk_nil (c : bool) (kc k : text) (h : Heap.heap) :
  forall vs new, Heap.h_setitem_walk c kc k h new [] vs = (h, new ++ Heap.h_filter c kc h vs, []).
Proof.
  induction vs as [|i vs IH]; intros new; simpl.
  - rewrite app_nil_r; reflexivity.
  - destruct (Heap.read_entry h i) as [[ik iv]|].
    + destruct (String.eqb (kconv c ik) kc).
      * apply IH.
      * rewrite IH, <- app_assoc; reflexivity.
    + rewrite IH, <- app_assoc; reflexivity.
Qed.

(** C10: [set_values(key, [])] has exactly the effect of [delete(key)]:
    on the value of the map, and on the heap of objects. *)
Theorem setitem_empty_is_delitem (m : ODict) (k : text) :
  setitem m k (VAList []) = (delitem m k, None) /\
  (forall h x, Heap.h_setitem h x k (VAList []) = (Heap.h_delitem h x k, None)).
Proof.
  split.
  - unfold setitem, delitem, filter_lst. cbv zeta.
    rewrite setitem_walk_nil; reflexivity.
  - intros h x. unfold Heap.h_setitem, Heap.h_delitem.
    destruct (h !! x) as [[vs|c l]|]; try reflexivity.
    destruct (Heap.read_lst h l) as [vs|]; try reflexivity.
    rewrite h_setitem_walk_nil; reflexivity.
Qed.

Lemma getitem_loop_spec (c : bool) (k : text) :
  forall l ret, getitem_loop c (kconv c k) ret l = ret ++ get_all_spec c k l.
Proof.
  unfold get_all_spec.
  induction l as [|i l IH]; intros ret; simpl.
  - rewrite app_nil_r; reflexivity.
  - change (String.eqb (kconv c (fst i)) (kconv c k)) with (key_matches c k i).
    destruct (key_matches c k i); simpl.
    + rewrite IH, <- app_assoc; reflexivity.
    + apply IH.
Qed.

Lemma contains_loop_spec (c : bool) (k : text) :
  forall l, contains_loop c k l = true <-> Exists (fun e => kconv c (fst e) = kconv c k) l.
Proof.
  induction l as [|i l IH]; simpl.
  - split; [discriminate | intros H; inversion H].
  - destruct (String.eqb (kconv c (fst i)) (kconv c k)) eqn:He.
    + apply String.eqb_eq in He. split; [intros _; now constructor | reflexivity].
    + apply String.eqb_neq in He. rewrite IH. split.
      * intros H; now apply Exists_cons_tl.
      * intros H; inversion H; subst; [contradiction | assumption].
Qed.

(** C7: [get_all(key)] is the list of the values of the entries whose
    converted key equals the converted [key], in order (empty when none
    matches); [contains(key)] holds iff some entry's converted key
    matches. *)
Theorem getitem_contains_spec (m : ODict) (k : text) :
  getitem m k = map snd (List.filter (fun e => String.eqb (kconv (caseless m) (fst e))
                                                         (kconv (caseless m) k)) (lst m)) /\
  (Forall (fun e => kconv (caseless m) (fst e) <> kconv (caseless m) k) (lst m) ->
   getitem m k = []) /\
  (contains m k = true <->
   Exists (fun e => kconv (caseless m) (fst e) = kconv (caseless m) k) (lst m)).
Proof.
  split; [|split].
  - unfold getitem. rewrite getitem_loop_spec. reflexivity.
  - intros Hn. unfold getitem. rewrite getitem_loop_spec. simpl.
    unfold get_all_spec. induction Hn as [|e l He Hl IH]; simpl; [reflexivity|].
    unfold key_matches at 1. apply String.eqb_neq in He. rewrite He. exact IH.
  - apply contains_loop_spec.
Qed.

Theorem getitem_contains_spec_witness :
  Forall (fun e => kconv false (fst e) <> kconv false "k"%string) [("a", "1")]%string /\
  getitem (mkODict false [("a", "1")]%string) "k"%string = [].
Proof.
  assert (H : Forall (fun e => kconv false (fst e) <> kconv false "k"%string) [("a", "1")]%string).
  { constructor; [discriminate | constructor]. }
  split; [exact H|].
  exact (proj1 (proj2 (getitem_contains_spec (mkODict false [("a", "1")]%string) "k"%string)) H).
Defined.

(** C6: in the caseless class every lookup compares [lower] of both
    keys, and [add] stores the key as given: after [add("HOST", "x")] on
    an empty caseless map, [contains("Host")] holds, [get_all("host")]
    is [["x"]] and the entry's key is still ["HOST"]. *)
Theorem caseless_lookup (l : list entry) (k : text) :
  getitem (mkODict true l) k =
    map snd (List.filter (fun e => String.eqb (lower (fst e)) (lower k)) l) /\
  (contains (mkODict true l) k = true <-> Exists (fun e => lower (fst e) = lower k) l) /\
  (let m := add (ODict_init true []) "HOST"%string "x"%string in
   contains m "Host"%string = true /\ getitem m "host"%string = ["x"%string] /\
   lst m = [("HOST", "x")%string]).
Proof.
  split; [|split].
  - exact (proj1 (getitem_contains_spec (mkODict true l) k)).
  - exact (proj2 (proj2 (getitem_contains_spec (mkODict true l) k))).
  - vm_compute. repeat split.
Qed.

Lemma format_loop_app :
  forall l elements, format_loop elements l = elements ++ map line l.
Proof.
  induction l as [|i l IH]; intros elements; simpl.
  - rewrite app_nil_r; reflexivity.
  - rewrite IH, <- app_assoc; reflexivity.
Qed.

Lemma bytes_join_cons2 (sep x y : bytes) (r : list bytes) :
  bytes_join sep (x :: y :: r) = x ++ sep ++ bytes_join sep (y :: r).
Proof. reflexivity. Qed.

Lemma bytes_join_trailing (l : list bytes) :
  bytes_join crlf (l ++ [[]]) = concat (map (fun b => b ++ crlf) l).
Proof.
  induction l as [|b l IH]; [reflexivity|].
  destruct l as [|b' l'].
  - simpl. rewrite !app_nil_r. reflexivity.
  - cbn [app]. rewrite bytes_join_cons2.
    change (b' :: l' ++ [[]]) with ((b' :: l') ++ [[]]).
    rewrite IH. cbn [map concat]. rewrite <- (app_assoc b crlf). reflexivity.
Qed.

(** C3: [format()] renders each entry as [key + b": " + value] (UTF-8),
    joins the lines and one empty segment with CRLF, which is the
    concatenation of the lines each followed by CRLF; the two-entry map
    of the spec gives [b"Content-Length: 5\r\nHost: example.com\r\n"]. *)
Theorem format_spec_ok (m : ODict) :
  format m = bytes_join crlf (map line (lst m) ++ [[]]) /\
  format m = format_spec (lst m) /\
  format (mkODict false [("Content-Length", "5"); ("Host", "example.com")]%string) =
    ascii_bytes "Content-Length: 5" ++ crlf ++ ascii_bytes "Host: example.com" ++ crlf.
Proof.
  unfold format. rewrite format_loop_app. simpl.
  split; [reflexivity|split].
  - unfold format_spec. rewrite bytes_join_trailing, map_map. reflexivity.
  - vm_compute. reflexivity.
Qed.

(** C9: the empty map formats to the empty byte string, while a map with
    entries formats to bytes ending in CRLF. *)
Theorem format_empty (c : bool) (e : entry) (l : list entry) :
  format (mkODict c []) = [] /\
  exists p, format (mkODict c (e :: l)) = p ++ crlf.
Proof.
  split; [reflexivity|].
  destruct (format_spec_ok (mkODict c (e :: l))) as [_ [H _]].
  rewrite H. unfold format_spec. cbn [lst].
  destruct (exists_last (l := e :: l) ltac:(discriminate)) as [l0 [a Hl]].
  rewrite Hl, List.map_app, List.concat_app. simpl.
  exists (concat (map (fun e0 => line e0 ++ crlf) l0) ++ line a).
  rewrite app_nil_r, <- app_assoc. reflexivity.
Qed.
Example re_subn_literal_ex1 : re_subn_literal "a"%string "b"%string "banana"%string = ("bbnbnb"%string, 3).
Proof. reflexivity. Qed.
Example re_subn_literal_ex2 : re_subn_literal ""%string "-"%string "ab"%string = ("-a-b-"%string, 3).
Proof. reflexivity. Qed.
Example re_subn_literal_ex3 : re_subn_literal "aa"%string "x"%string "aaa"%string = ("xa"%string, 1).
Proof. reflexivity. Qed.


Lemma replace_loop_spec (re_subn : text -> text -> text -> text * nat) (p r : text) :
  forall l nlst count,
    replace_loop re_subn p r nlst count l =
    (nlst ++ fst (replace_spec re_subn p r l), count + snd (replace_spec re_subn p r l)).
Proof.
  induction l as [|i l IH]; intros nlst count; simpl.
  - rewrite app_nil_r, Nat.add_0_r; reflexivity.
  - unfold safe_subn.
    destruct (re_subn p r (fst i)) as [k c1] eqn:Hk.
    destruct (re_subn p r (snd i)) as [v c2] eqn:Hv.
    rewrite IH. simpl. rewrite <- app_assoc. f_equal. lia.
Qed.

(** C5: [replace(pattern, repl)] substitutes in the key and in the value
    of every entry on their own, returns the sum of all the substitution
    counts and keeps the number and order of the entries; with the
    literal pattern ["a"], [replace("a", "b")] on [[("a", "a")]] returns
    2 and leaves [[("b", "b")]]. *)
Theorem replace_ok (re_subn : text -> text -> text -> text * nat)
        (m : ODict) (pattern repl : text) :
  replace re_subn m pattern repl =
    (mkODict (caseless m) (fst (replace_spec re_subn pattern repl (lst m))),
     snd (replace_spec re_subn pattern repl (lst m))) /\
  length (lst (fst (replace re_subn m pattern repl))) = length (lst m) /\
  replace re_subn_literal (mkODict false [("a", "a")]%string) "a"%string "b"%string =
    (mkODict false [("b", "b")]%string, 2).
Proof.
  assert (H : replace re_subn m pattern repl =
    (mkODict (caseless m) (fst (replace_spec re_subn pattern repl (lst m))),
     snd (replace_spec re_subn pattern repl (lst m)))).
  { unfold replace. rewrite replace_loop_spec. reflexivity. }
  split; [exact H | split].
  - rewrite H. simpl. apply length_map.
  - reflexivity.
Qed.

(** * Proofs about sharing *)

Import Heap.

(** [h'] keeps every object of [h] and may add new ones. *)
Definition grows (h h' : heap) : Prop :=
  length h <= length h' /\ forall l, l < length h -> h' !! l = h !! l.

Lemma grows_refl (h : heap) : grows h h.
Proof. split; auto. Qed.

Lemma grows_trans (h1 h2 h3 : heap) : grows h1 h2 -> grows h2 h3 -> grows h1 h3.
Proof.
  intros [L1 E1] [L2 E2]; split; [lia|].
  intros l Hl. rewrite E2 by lia. apply E1; lia.
Qed.

Lemma grows_alloc (h : heap) (o : obj) : grows h (h ++ [o]).
Proof.
  split; [rewrite length_app; simpl; lia|].
  intros l Hl; apply lookup_app_l; exact Hl.
Qed.

Lemma lookup_alloc_new (h : heap) (o : obj) : (h ++ [o]) !! length h = Some o.
Proof. rewrite lookup_app_r by lia. rewrite Nat.sub_diag. reflexivity. Qed.

Lemma length_alloc (h : heap) (o : obj) : length (h ++ [o]) = S (length h).
Proof. rewrite length_app; simpl; lia. Qed.

Lemma refs_app (a b : list val) : refs (a ++ b) = refs a ++ refs b.
Proof. induction a as [|[s|l] a IH]; simpl; rewrite ?IH; reflexivity. Qed.

Lemma refs_cons_incl (i : val) (vs : list val) (r : loc) :
  In r (refs [i]) -> In r (refs (i :: vs)).
Proof. destruct i; simpl; tauto. Qed.

Lemma h_setitem_walk_grows (c : bool) (kc k : text) :
  forall vs h new vl h1 new' rest,
    h_setitem_walk c kc k h new vl vs = (h1, new', rest) ->
    grows h h1 /\
    forall r, In r (refs new') -> In r (refs new) \/ In r (refs vs) \/ length h <= r.
Proof.
  induction vs as [|i vs IH]; intros h new vl h1 new' rest Hw; simpl in Hw.
  - inversion Hw; subst. split; [apply grows_refl | auto].
  - assert (Hkeep : forall vl2, h_setitem_walk c kc k h (new ++ [i]) vl2 vs = (h1, new', rest) ->
              grows h h1 /\ forall r, In r (refs new') ->
                In r (refs new) \/ In r (refs (i :: vs)) \/ length h <= r).
    { intros vl2 H. destruct (IH _ _ _ _ _ _ H) as [G R]. split; [exact G|].
      intros r Hr. destruct (R r Hr) as [H1|[H1|H1]]; [|right; left; simpl; destruct i; simpl; tauto|auto].
      rewrite refs_app, in_app_iff in H1. destruct H1 as [H1|H1]; [auto|].
      right; left; now apply refs_cons_incl. }
    destruct (read_entry h i) as [[ik iv]|].
    + destruct (String.eqb (kconv c ik) kc).
      * destruct vl as [|v vl'].
        -- destruct (IH _ _ _ _ _ _ Hw) as [G R]. split; [exact G|].
           intros r Hr. destruct (R r Hr) as [H1|[H1|H1]]; [auto| |auto].
           right; left; destruct i; simpl; tauto.
        -- destruct (IH _ _ _ _ _ _ Hw) as [G R].
           split; [eapply grows_trans; [apply grows_alloc | exact G]|].
           intros r Hr. rewrite length_alloc in R.
           destruct (R r Hr) as [H1|[H1|H1]].
           ++ rewrite refs_app, in_app_iff in H1. simpl in H1.
              destruct H1 as [H1|[H1|[]]]; [auto | right; right; lia].
           ++ right; left; destruct i; simpl; tauto.
           ++ right; right; lia.
      * exact (Hkeep vl Hw).
    + exact (Hkeep vl Hw).
Qed.

Lemma h_setitem_drain_grows (k : text) :
  forall vl h new h1 new',
    h_setitem_drain k h new vl = (h1, new') ->
    grows h h1 /\ forall r, In r (refs new') -> In r (refs new) \/ length h <= r.
Proof.
  induction vl as [|v vl IH]; intros h new h1 new' Hd; simpl in Hd.
  - inversion Hd; subst. split; [apply grows_refl | auto].
  - destruct (IH _ _ _ _ Hd) as [G R].
    split; [eapply grows_trans; [apply grows_alloc | exact G]|].
    intros r Hr. rewrite length_alloc in R. destruct (R r Hr) as [H1|H1].
    + rewrite refs_app, in_app_iff in H1. simpl in H1.
      destruct H1 as [H1|[H1|[]]]; [auto | right; lia].
    + right; lia.
Qed.

Lemma h_filter_refs (c : bool) (kc : text) (h : heap) :
  forall vs r, In r (refs (h_filter c kc h vs)) -> In r (refs vs).
Proof.
  induction vs as [|i vs IH]; intros r Hr; simpl in Hr; [exact Hr|].
  assert (Hk : In r (refs (i :: h_filter c kc h vs)) -> In r (refs (i :: vs))).
  { destruct i; simpl; intuition. }
  destruct (read_entry h i) as [[ik iv]|].
  - destruct (String.eqb (kconv c ik) kc).
    + specialize (IH r Hr). destruct i; simpl; auto.
    + exact (Hk Hr).
  - exact (Hk Hr).
Qed.

Lemma alloc_entries_grows :
  forall st h h1 es, alloc_entries h st = (h1, es) ->
    grows h h1 /\ (forall r, In r (refs es) -> length h <= r < length h1) /\
    forall h2, grows h1 h2 -> read_entries h2 es = Some (map (fun i => (fst i, snd i)) st).
Proof.
  induction st as [|[k v] st IH]; intros h h1 es Ha; simpl in Ha.
  - inversion Ha; subst. split; [apply grows_refl | split; [simpl; tauto | reflexivity]].
  - destruct (alloc_entries (h ++ [OList [VStr k; VStr v]]) st) as [h2 es2] eqn:Ha2.
    inversion Ha; subst.
    destruct (IH _ _ _ Ha2) as [G [R E]].
    split; [eapply grows_trans; [apply grows_alloc | exact G]|].
    split.
    + intros r Hr. destruct G as [GL _]. rewrite length_alloc in GL.
      simpl in Hr. destruct Hr as [Hr|Hr]; [subst; lia|].
      specialize (R r Hr). rewrite length_alloc in R. lia.
    + intros h3 G3. simpl. rewrite (E h3 G3).
      destruct G as [GL GE]. destruct G3 as [GL3 GE3].
      rewrite length_alloc in GL.
      rewrite GE3 by lia. rewrite GE by (rewrite length_alloc; lia).
      rewrite lookup_alloc_new. reflexivity.
Qed.

Lemma read_entries_frame (h h' : heap) :
  forall vs, (forall r, In r (refs vs) -> h' !! r = h !! r) ->
  read_entries h' vs = read_entries h vs.
Proof.
  induction vs as [|[s|l] vs IH]; intros Hr; simpl; [reflexivity| |].
  - reflexivity.
  - rewrite (Hr l) by (simpl; auto).
    rewrite IH by (intros r Hin; apply Hr; simpl; auto). reflexivity.
Qed.

Lemma read_entries_valid (h : heap) :
  forall vs es, read_entries h vs = Some es -> forall r, In r (refs vs) -> r < length h.
Proof.
  induction vs as [|[s|l] vs IH]; intros es He r Hr; simpl in *; [contradiction| |].
  - discriminate.
  - destruct (h !! l) as [o|] eqn:Hl; [|discriminate].
    destruct (read_entries h vs) as [es'|] eqn:Hes; [|destruct o as [[|[] [|[] []]]|]; discriminate].
    destruct Hr as [Hr|Hr].
    + subst. eapply lookup_lt_Some; exact Hl.
    + eapply IH; eauto.
Qed.

Lemma view_reach_valid (h : heap) (y : loc) (d : ODict) :
  view h y = Some d -> forall l, In l (reach h y) -> l < length h.
Proof.
  unfold view, reach. intros Hv l Hl.
  destruct (h !! y) as [[vs|c ly]|] eqn:Hy; try discriminate.
  unfold read_lst in *.
  destruct (h !! ly) as [[vs|c' l']|] eqn:Hly; try discriminate.
  destruct (read_entries h vs) as [es|] eqn:Hes; try discriminate.
  simpl in Hl. destruct Hl as [Hl|[Hl|Hl]]; subst.
  - eapply lookup_lt_Some; exact Hy.
  - eapply lookup_lt_Some; exact Hly.
  - eapply read_entries_valid; eauto.
Qed.

(** The value of an instance depends only on its own objects. *)
Lemma view_frame (h h' : heap) (y : loc) (d : ODict) :
  view h y = Some d -> (forall l, In l (reach h y) -> h' !! l = h !! l) ->
  view h' y = Some d /\ reach h' y = reach h y.
Proof.
  unfold view, reach. intros Hv Hag.
  destruct (h !! y) as [[vs|c ly]|] eqn:Hy; try discriminate.
  rewrite (Hag y) by (simpl; auto). rewrite Hy.
  unfold read_lst in *.
  rewrite (Hag ly) by (simpl; auto).
  destruct (h !! ly) as [[vs|c' l']|] eqn:Hly; try discriminate.
  rewrite (read_entries_frame h h') by (intros r Hr; apply Hag; simpl; auto).
  split; [exact Hv | reflexivity].
Qed.

Lemma rebind_spec (h : heap) (x : loc) (c : bool) (new : list val) :
  x < length h ->
  length (rebind h x c new) = S (length h) /\
  (forall l, l < length h -> l <> x -> rebind h x c new !! l = h !! l) /\
  reach (rebind h x c new) x = x :: length h :: refs new.
Proof.
  intros Hx. unfold rebind, alloc.
  split; [rewrite length_insert, length_alloc; reflexivity|].
  split.
  - intros l Hl Hne. rewrite list_lookup_insert_ne by congruence.
    apply lookup_app_l; exact Hl.
  - unfold reach, read_lst.
    rewrite list_lookup_insert_eq by (rewrite length_alloc; lia).
    rewrite list_lookup_insert_ne by lia.
    rewrite lookup_alloc_new. reflexivity.
Qed.

(** An operation on [x] changes only the objects of [x], and the objects
    of [x] afterwards are old objects of [x] or new ones. *)
Definition op_ok (x : loc) (h h' : heap) : Prop :=
  mutates_only (reach h x) h h' /\
  forall l, In l (reach h' x) -> In l (reach h x) \/ length h <= l.

Lemma op_ok_refl (x : loc) (h : heap) : op_ok x h h.
Proof. split; [split; auto | auto]. Qed.

(** The common tail of [__setitem__], [__delitem__] and [load_state]:
    objects allocated, then [self.lst] rebound. *)
Lemma op_ok_rebind (h h2 : heap) (x : loc) (c : bool) (l : loc) (vs new : list val) :
  h !! x = Some (OInst c l) -> read_lst h l = Some vs -> grows h h2 ->
  (forall r, In r (refs new) -> In r (refs vs) \/ length h <= r) ->
  op_ok x h (rebind h2 x c new).
Proof.
  intros Hx Hl [GL GE] Hr.
  assert (Hxl : x < length h) by (eapply lookup_lt_Some; exact Hx).
  destruct (rebind_spec h2 x c new) as [L [E R]]; [lia|].
  assert (Hreach : reach h x = x :: l :: refs vs).
  { unfold reach. rewrite Hx, Hl. reflexivity. }
  split; [split|].
  - lia.
  - intros l' Hl' Hn. rewrite E by (lia || (intros ->; apply Hn; rewrite Hreach; simpl; auto)).
    apply GE; exact Hl'.
  - rewrite R, Hreach. intros l' [H1|[H1|H1]].
    + left; simpl; auto.
    + right; lia.
    + destruct (Hr l' H1) as [H2|H2]; [left; simpl; auto | right; lia].
Qed.

Lemma h_add_ok (h : heap) (x : loc) (k v : text) : op_ok x h (h_add h x k v).
Proof.
  unfold h_add.
  destruct (h !! x) as [[vs0|c l]|] eqn:Hx; try apply op_ok_refl.
  destruct (read_lst h l) as [vs|] eqn:Hl; try apply op_ok_refl.
  unfold alloc. simpl.
  assert (Hxl : x < length h) by (eapply lookup_lt_Some; exact Hx).
  assert (Hll : h !! l = Some (OList vs)).
  { unfold read_lst in Hl. destruct (h !! l) as [[]|]; congruence. }
  assert (Hlt : l < length h) by (eapply lookup_lt_Some; exact Hll).
  assert (Hne : x <> l) by (intros ->; congruence).
  assert (Hreach : reach h x = x :: l :: refs vs).
  { unfold reach. rewrite Hx, Hl. reflexivity. }
  split; [split|].
  - rewrite length_insert, length_alloc; lia.
  - intros l' Hl' Hn. rewrite list_lookup_insert_ne
      by (intros ->; apply Hn; rewrite Hreach; simpl; auto).
    apply lookup_app_l; exact Hl'.
  - unfold reach at 1.
    rewrite list_lookup_insert_ne, lookup_app_l, Hx by (exact Hxl || congruence).
    unfold read_lst.
    rewrite list_lookup_insert_eq by (rewrite length_alloc; lia).
    rewrite refs_app, Hreach. simpl. intros l' [H1|[H1|H1]]; [left; auto | left; auto |].
    apply in_app_iff in H1. destruct H1 as [H1|[H1|[]]]; [left; auto | right; lia].
Qed.

Lemma h_setitem_ok (h : heap) (x : loc) (k : text) (a : valuearg) :
  op_ok x h (fst (h_setitem h x k a)).
Proof.
  unfold h_setitem. destruct a as [s|vl]; [apply op_ok_refl|].
  destruct (h !! x) as [[vs0|c l]|] eqn:Hx; try apply op_ok_refl.
  destruct (read_lst h l) as [vs|] eqn:Hl; try apply op_ok_refl.
  destruct (h_setitem_walk c (kconv c k) k h [] vl vs) as [[h1 new] rest] eqn:Hw.
  destruct (h_setitem_drain k h1 new rest) as [h2 new2] eqn:Hd.
  destruct (h_setitem_walk_grows _ _ _ _ _ _ _ _ _ _ Hw) as [G1 R1].
  destruct (h_setitem_drain_grows _ _ _ _ _ _ Hd) as [G2 R2].
  simpl. eapply op_ok_rebind; [exact Hx | exact Hl | eapply grows_trans; eauto |].
  intros r Hr. destruct (R2 r Hr) as [H1|H1].
  - destruct (R1 r H1) as [H3|[H3|H3]]; [simpl in H3; contradiction | auto | auto].
  - right. destruct G1 as [G1L _]. lia.
Qed.

Lemma h_delitem_ok (h : heap) (x : loc) (k : text) : op_ok x h (h_delitem h x k).
Proof.
  unfold h_delitem.
  destruct (h !! x) as [[vs0|c l]|] eqn:Hx; try apply op_ok_refl.
  destruct (read_lst h l) as [vs|] eqn:Hl; try apply op_ok_refl.
  eapply op_ok_rebind; [exact Hx | exact Hl | apply grows_refl |].
  intros r Hr; left; eapply h_filter_refs; exact Hr.
Qed.

Lemma h_load_state_ok (h : heap) (x : loc) (st : state) : op_ok x h (h_load_state h x st).
Proof.
  unfold h_load_state.
  destruct (h !! x) as [[vs0|c l]|] eqn:Hx; try apply op_ok_refl.
  destruct (alloc_entries h st) as [h1 es] eqn:Ha.
  destruct (alloc_entries_grows _ _ _ _ Ha) as [G [R _]].
  assert (Hxl : x < length h) by (eapply lookup_lt_Some; exact Hx).
  destruct G as [GL GE].
  destruct (rebind_spec h1 x c es) as [L [E Rr]]; [lia|].
  split; [split|].
  - lia.
  - intros l' Hl' Hn. rewrite E by (lia || (intros ->; apply Hn; unfold reach; rewrite Hx; simpl; auto)).
    apply GE; exact Hl'.
  - rewrite Rr. intros l' [H1|[H1|H1]].
    + left; unfold reach; rewrite Hx; simpl; auto.
    + right; lia.
    + right; apply R in H1; lia.
Qed.

Lemma exec_ok (h : heap) (x : loc) (cm : cmd) : op_ok x h (exec h x cm).
Proof.
  destruct cm; simpl.
  - apply h_add_ok.
  - apply h_setitem_ok.
  - apply h_delitem_ok.
  - apply h_load_state_ok.
Qed.

Lemma mutates_other (x y : loc) (h h' : heap) (dy : ODict) :
  view h y = Some dy ->
  (forall l, In l (reach h y) -> ~ In l (reach h x)) ->
  mutates_only (reach h x) h h' ->
  view h' y = Some dy /\ reach h' y = reach h y.
Proof.
  intros Hv Hd [_ Hm]. apply view_frame; [exact Hv|].
  intros l Hl. apply Hm; [eapply view_reach_valid; eauto | apply Hd; exact Hl].
Qed.

Lemma run_other (x y : loc) :
  forall cs h dy, view h y = Some dy ->
  (forall l, In l (reach h y) -> ~ In l (reach h x)) ->
  view (run h x cs) y = Some dy.
Proof.
  induction cs as [|cm cs IH]; intros h dy Hv Hd; simpl; [exact Hv|].
  destruct (exec_ok h x cm) as [Hm Hr].
  destruct (mutates_other x y h (exec h x cm) dy Hv Hd Hm) as [Hv' Hreach].
  apply IH; [exact Hv'|].
  rewrite Hreach. intros l Hl Hx.
  destruct (Hr l Hx) as [H1|H1]; [exact (Hd l Hl H1)|].
  pose proof (view_reach_valid h y dy Hv l Hl). lia.
Qed.

(** Two instances with no object in common: whatever is done to one,
    by the map's operations or by writing its objects, leaves the other
    as it is. *)
Lemma independent (h : heap) (x y : loc) (dx dy : ODict) :
  view h x = Some dx -> view h y = Some dy ->
  (forall l, In l (reach h x) -> ~ In l (reach h y)) ->
  (forall cs, view (run h x cs) y = Some dy) /\
  (forall cs, view (run h y cs) x = Some dx) /\
  (forall h', mutates_only (reach h x) h h' -> view h' y = Some dy) /\
  (forall h', mutates_only (reach h y) h h' -> view h' x = Some dx).
Proof.
  intros Hx Hy Hd.
  assert (Hd' : forall l, In l (reach h y) -> ~ In l (reach h x)).
  { intros l H1 H2. exact (Hd l H2 H1). }
  split; [|split; [|split]].
  - intros cs; apply run_other; assumption.
  - intros cs; apply run_other; assumption.
  - intros h' Hm. exact (proj1 (mutates_other x y h h' dy Hy Hd' Hm)).
  - intros h' Hm. exact (proj1 (mutates_other y x h h' dx Hx Hd Hm)).
Qed.

(** A new instance made only of new objects shares nothing with an
    instance that was there before. *)
Lemma fresh_instance (h h' : heap) (x x' : loc) (dx : ODict) :
  view h x = Some dx -> grows h h' ->
  (forall l, In l (reach h' x') -> length h <= l) ->
  view h' x = Some dx /\ reach h' x = reach h x /\
  (forall l, In l (reach h' x') -> ~ In l (reach h' x)).
Proof.
  intros Hv [GL GE] Hf.
  assert (Hfr : view h' x = Some dx /\ reach h' x = reach h x).
  { apply view_frame; [exact Hv|]. intros l Hl. apply GE.
    eapply view_reach_valid; eauto. }
  destruct Hfr as [Hv' Hr]. split; [exact Hv'|split; [exact Hr|]].
  intros l H1 H2. rewrite Hr in H2. specialize (Hf l H1).
  pose proof (view_reach_valid h x dx Hv l H2). lia.
Qed.

Lemma map_pair_id (l : list entry) : map (fun i => (fst i, snd i)) l = l.
Proof. induction l as [|[a b] l IH]; simpl; rewrite ?IH; reflexivity. Qed.

Lemma lst_eqb_refl (l : list entry) : lst_eqb l l = true.
Proof.
  induction l as [|[a b] l IH]; simpl; [reflexivity|].
  rewrite !String.eqb_refl, IH. reflexivity.
Qed.

Lemma h_from_state_spec (c : bool) (st : state) (h : heap) :
  let '(r, h') := h_from_state c st h in
  grows h h' /\ view h' r = Some (from_state c st) /\
  (forall l, In l (reach h' r) -> length h <= l).
Proof.
  unfold h_from_state.
  destruct (alloc_entries h st) as [h1 es] eqn:Ha.
  destruct (alloc_entries_grows _ _ _ _ Ha) as [G [R E]].
  unfold alloc.
  set (h2 := h1 ++ [OList es]). set (h' := h2 ++ [OInst c (length h1)]).
  assert (G1 : grows h1 h') by (eapply grows_trans; apply grows_alloc).
  assert (Hr : h' !! length h2 = Some (OInst c (length h1))) by apply lookup_alloc_new.
  assert (Hl : h' !! length h1 = Some (OList es)).
  { unfold h'. rewrite lookup_app_l by (unfold h2; rewrite length_alloc; lia).
    apply lookup_alloc_new. }
  split; [eapply grows_trans; eauto|split].
  - unfold view, read_lst. rewrite Hr, Hl, (E h' G1). reflexivity.
  - unfold reach, read_lst. rewrite Hr, Hl. destruct G as [GL _].
    unfold h2. rewrite length_alloc.
    intros l [H1|[H1|H1]]; [lia | lia | apply R in H1; lia].
Qed.

Lemma deepcopy_items_spec (h0 : heap) (n : nat) :
  length h0 <= n ->
  forall vs es hc memo h2 ns,
    read_entries h0 vs = Some es ->
    (forall l, l < length h0 -> hc !! l = h0 !! l) ->
    n <= length hc ->
    (forall a b, memo_find memo a = Some b -> n <= b < length hc /\ hc !! b = h0 !! a) ->
    deepcopy_items hc memo vs = (h2, ns) ->
    grows hc h2 /\ read_entries h2 ns = Some es /\
    (forall r, In r (refs ns) -> n <= r < length h2).
Proof.
  intros H0n.
  induction vs as [|[s|a] vs IH]; intros es hc memo h2 ns He Hc Hn Hm Hd; simpl in *.
  - inversion Hd; inversion He; subst. split; [apply grows_refl | split; [reflexivity | simpl; tauto]].
  - discriminate.
  - destruct (h0 !! a) as [o|] eqn:Ha; [|discriminate].
    assert (Ho : exists k x, o = OList [VStr k; VStr x]).
    { destruct o as [[|[k|] [|[x|] []]]|]; try discriminate; eauto. }
    destruct Ho as [k [x ->]].
    destruct (read_entries h0 vs) as [es'|] eqn:Hes; [|discriminate].
    inversion He; subst es.
    assert (Hal : a < length h0) by (eapply lookup_lt_Some; exact Ha).
    destruct (memo_find memo a) as [b|] eqn:Hmf.
    + destruct (deepcopy_items hc memo vs) as [h1 ns'] eqn:Hd'.
      inversion Hd; subst h2 ns.
      destruct (IH _ _ _ _ _ eq_refl Hc Hn Hm Hd') as [[GL GE] [E R]].
      destruct (Hm a b Hmf) as [Hb Hbv].
      split; [split; assumption|split].
      * simpl. rewrite GE by lia. rewrite Hbv, Ha, E. reflexivity.
      * intros r [Hr|Hr]; [subst; lia | apply R; exact Hr].
    + rewrite (Hc a Hal), Ha in Hd. unfold alloc in Hd.
      destruct (deepcopy_items (hc ++ [OList [VStr k; VStr x]]) ((a, length hc) :: memo) vs)
        as [h1 ns'] eqn:Hd'.
      inversion Hd; subst h2 ns.
      set (hc' := hc ++ [OList [VStr k; VStr x]]) in *.
      assert (Hc' : forall l, l < length h0 -> hc' !! l = h0 !! l).
      { intros l Hl. unfold hc'. rewrite lookup_app_l by lia. apply Hc; exact Hl. }
      assert (Hn' : n <= length hc') by (unfold hc'; rewrite length_alloc; lia).
      assert (Hm' : forall a' b, memo_find ((a, length hc) :: memo) a' = Some b ->
                      n <= b < length hc' /\ hc' !! b = h0 !! a').
      { intros a' b Hf. unfold hc'. rewrite length_alloc. simpl in Hf.
        destruct (Nat.eqb a a') eqn:Haa.
        - apply Nat.eqb_eq in Haa. inversion Hf; subst.
          split; [lia|]. rewrite lookup_alloc_new, Ha. reflexivity.
        - destruct (Hm a' b Hf) as [Hb Hbv]. split; [lia|].
          rewrite lookup_app_l by lia. exact Hbv. }
      destruct (IH _ _ _ _ _ eq_refl Hc' Hn' Hm' Hd') as [[GL GE] [E R]].
      unfold hc' in GL, GE. rewrite length_alloc in GL.
      split; [|split].
      * split; [lia|]. intros l Hl. rewrite GE by (rewrite length_alloc; lia).
        apply lookup_app_l; exact Hl.
      * simpl. rewrite GE by (rewrite length_alloc; lia).
        rewrite lookup_alloc_new, E. reflexivity.
      * intros r [Hr|Hr]; [subst; lia | apply R; exact Hr].
Qed.

Lemma h_copy_spec (h : heap) (x : loc) (d : ODict) :
  view h x = Some d ->
  let '(x', h') := h_copy h x in
  grows h h' /\ view h' x' = Some (copy d) /\
  (forall l, In l (reach h' x') -> length h <= l).
Proof.
  intros Hv. unfold view in Hv. unfold h_copy.
  destruct (h !! x) as [[vs0|c l]|] eqn:Hx; try discriminate.
  destruct (read_lst h l) as [vs|] eqn:Hl; try discriminate.
  destruct (read_entries h vs) as [es|] eqn:Hes; try discriminate.
  inversion Hv; subst d. clear Hv.
  unfold alloc at 1.
  set (h1 := h ++ [OList []]).
  destruct (deepcopy_items h1 [] vs) as [h2 ns] eqn:Hd.
  destruct (deepcopy_items_spec h (S (length h)) ltac:(lia) vs es h1 [] h2 ns Hes)
    as [[GL GE] [E R]]; try exact Hd.
  { intros l' Hl'. apply lookup_app_l; exact Hl'. }
  { unfold h1; rewrite length_alloc; lia. }
  { intros a b Hf; discriminate. }
  unfold h1 in GL, GE. rewrite length_alloc in GL.
  set (h3 := <[length h := OList ns]> h2).
  assert (L3 : length h3 = length h2) by apply length_insert.
  unfold alloc.
  set (h' := h3 ++ [OInst c (length h)]).
  assert (Hold : forall l', l' < length h2 -> l' <> length h -> h' !! l' = h2 !! l').
  { intros l' H1 H2. unfold h'. rewrite lookup_app_l by lia.
    unfold h3. rewrite list_lookup_insert_ne by congruence. reflexivity. }
  assert (Hx' : h' !! length h3 = Some (OInst c (length h))) by apply lookup_alloc_new.
  assert (Hnl : h' !! length h = Some (OList ns)).
  { unfold h'. rewrite lookup_app_l by lia. unfold h3.
    apply list_lookup_insert_eq. lia. }
  assert (Hns : read_entries h' ns = Some es).
  { rewrite (read_entries_frame h2 h'); [exact E|].
    intros r Hr. specialize (R r Hr). apply Hold; lia. }
  split; [|split].
  - split; [unfold h'; rewrite length_alloc; lia|].
    intros l' Hl'. rewrite Hold by lia. rewrite GE by (rewrite length_alloc; lia).
    apply lookup_app_l; exact Hl'.
  - unfold view, read_lst, copy, ODict_init. rewrite Hx', Hnl, Hns. simpl.
    rewrite map_pair_id. reflexivity.
  - unfold reach, read_lst. rewrite Hx', Hnl.
    intros l' [H1|[H1|H1]]; [lia | lia | apply R in H1; lia].
Qed.

(** C4: [from_state(m.get_state())] is a new instance equal to [m] (same
    entries in the same order, so [__eq__] holds) whose objects are all
    new: the two share no object, so running the map's operations on
    either one, or writing any object of either one, leaves the other as
    it was. *)
Theorem snapshot_roundtrip (h : heap) (x : loc) (d : ODict) (klass : bool) :
  view h x = Some d ->
  h_get_state h x = Some (get_state d) /\
  let '(r, h') := h_from_state klass (get_state d) h in
  view h' r = Some (from_state klass (get_state d)) /\
  lst (from_state klass (get_state d)) = lst d /\
  odict_eqb (from_state klass (get_state d)) d = true /\
  view h' x = Some d /\
  (forall l, In l (reach h' r) -> ~ In l (reach h' x)) /\
  (forall cs, view (run h' r cs) x = Some d) /\
  (forall cs, view (run h' x cs) r = Some (from_state klass (get_state d))) /\
  (forall h'', mutates_only (reach h' r) h' h'' -> view h'' x = Some d) /\
  (forall h'', mutates_only (reach h' x) h' h'' ->
     view h'' r = Some (from_state klass (get_state d))).
Proof.
  intros Hv. split; [unfold h_get_state; rewrite Hv; reflexivity|].
  pose proof (h_from_state_spec klass (get_state d) h) as Hs.
  destruct (h_from_state klass (get_state d) h) as [r h'].
  destruct Hs as [G [Vr F]].
  destruct (fresh_instance h h' x r d Hv G F) as [Vx [_ D]].
  assert (Hl : lst (from_state klass (get_state d)) = lst d).
  { unfold from_state, get_state, ODict_init. simpl. rewrite !map_pair_id. reflexivity. }
  destruct (independent h' r x _ d Vr Vx D) as [I1 [I2 [I3 I4]]].
  split; [exact Vr|]. split; [exact Hl|].
  split; [unfold odict_eqb; rewrite Hl; apply lst_eqb_refl|].
  split; [exact Vx|]. split; [exact D|].
  split; [exact I1|]. split; [exact I2|]. split; [exact I3 | exact I4].
Qed.

(** C8: [copy()] gives a new instance equal to [m] whose objects are all
    new ([copy.deepcopy] of [lst]): running the map's operations on
    either one, or writing any object of either one, leaves the other as
    it was. *)
Theorem copy_independent (h : heap) (x : loc) (d : ODict) :
  view h x = Some d ->
  let '(x', h') := h_copy h x in
  view h' x' = Some (copy d) /\
  lst (copy d) = lst d /\ caseless (copy d) = caseless d /\
  odict_eqb (copy d) d = true /\
  view h' x = Some d /\
  (forall l, In l (reach h' x') -> ~ In l (reach h' x)) /\
  (forall cs, view (run h' x' cs) x = Some d) /\
  (forall cs, view (run h' x cs) x' = Some (copy d)) /\
  (forall h'', mutates_only (reach h' x') h' h'' -> view h'' x = Some d) /\
  (forall h'', mutates_only (reach h' x) h' h'' -> view h'' x' = Some (copy d)).
Proof.
  intros Hv.
  pose proof (h_copy_spec h x d Hv) as Hs.
  destruct (h_copy h x) as [x' h'].
  destruct Hs as [G [Vc F]].
  destruct (fresh_instance h h' x x' d Hv G F) as [Vx [_ D]].
  assert (Hl : lst (copy d) = lst d).
  { unfold copy, ODict_init. simpl. apply map_pair_id. }
  destruct (independent h' x' x _ d Vc Vx D) as [I1 [I2 [I3 I4]]].
  split; [exact Vc|]. split; [exact Hl|]. split; [reflexivity|].
  split; [unfold odict_eqb; rewrite Hl; apply lst_eqb_refl|].
  split; [exact Vx|]. split; [exact D|].
  split; [exact I1|]. split; [exact I2|]. split; [exact I3 | exact I4].
Qed.

(** A heap with one caseless-free instance at 0 whose [lst] lists the same
    entry object twice (as after [m.extend(m)]). *)
Definition h_ex : heap :=
  [OInst false 1; OList [VRef 2; VRef 2]; OList [VStr "Host"%string; VStr "a"%string]].

Definition d_ex : ODict := mkODict false [("Host", "a"); ("Host", "a")]%string.

Theorem snapshot_roundtrip_witness :
  view h_ex 0 = Some d_ex /\
  view (snd (h_from_state false (get_state d_ex) h_ex)) (fst (h_from_state false (get_state d_ex) h_ex))
    = Some (from_state false (get_state d_ex)).
Proof.
  split; [reflexivity|].
  pose proof (snapshot_roundtrip h_ex 0 d_ex false eq_refl) as [_ H].
  destruct (h_from_state false (get_state d_ex) h_ex) as [r h'].
  exact (proj1 H).
Defined.

Theorem copy_independent_witness :
  view h_ex 0 = Some d_ex /\
  view (snd (h_copy h_ex 0)) (fst (h_copy h_ex 0)) = Some (copy d_ex).
Proof.
  split; [reflexivity|].
  pose proof (copy_independent h_ex 0 d_ex eq_refl) as H.
  destruct (h_copy h_ex 0) as [x' h'].
  exact (proj1 H).
Defined.

(** The deep copy keeps the sharing inside the copied list: one new entry
    object, listed twice. *)
Example copy_keeps_inner_sharing :
  h_copy h_ex 0 =
  (5, [OInst false 1; OList [VRef 2; VRef 2]; OList [VStr "Host"%string; VStr "a"%string];
       OList [VRef 4; VRef 4]; OList [VStr "Host"%string; VStr "a"%string];
       OInst false 3]).
Proof. reflexivity. Qed.

(** Two instances built on one list ([ODict(m.lst)] keeps the list it is
    given): [add] on one shows in the other. *)
Example shared_lst_add :
  let h := [OInst false 2; OInst false 2; OList []] in
  view (h_add h 0 "k"%string "v"%string) 1 = Some (mkODict false [("k", "v")]%string).
Proof. reflexivity. Qed.

Example copy_then_add :
  let '(x', h') := h_copy h_ex 0 in
  view (run h' x' [CAdd "X"%string "1"%string; CSet "Host"%string (VAList ["b"%string])]) 0 = Some d_ex /\
  view (run h' x' [CAdd "X"%string "1"%string; CSet "Host"%string (VAList ["b"%string])]) x' =
    Some (mkODict false [("Host", "b"); ("X", "1")]%string).
Proof. split; reflexivity. Qed.

(** * Further properties of the interface *)

Lemma getitem_filter (m : ODict) (k : text) :
  getitem m k = map snd (List.filter (key_matches (caseless m) k) (lst m)).
Proof. unfold getitem. rewrite getitem_loop_spec. reflexivity. Qed.

Lemma contains_existsb (m : ODict) (k : text) :
  contains m k = existsb (key_matches (caseless m) k) (lst m).
Proof.
  unfold contains. induction (lst m) as [|e l IH]; simpl; [reflexivity|].
  rewrite IH. unfold key_matches at 2. destruct (String.eqb _ _); reflexivity.
Qed.

Lemma contains_getitem (m : ODict) (k : text) :
  contains m k = false <-> getitem m k = [].
Proof.
  rewrite contains_existsb, getitem_filter.
  induction (lst m) as [|e l IH]; simpl; [tauto|].
  destruct (key_matches (caseless m) k e); simpl; [split; discriminate | exact IH].
Qed.

(** X1: [get(k, d)] returns the default exactly when no entry matches,
    and otherwise the (non-empty) list [self[k]]. *)
Theorem get_default_iff {A : Type} (m : ODict) (k : text) (d : A) :
  (get m k d = inr d <-> getitem m k = []) /\
  (forall vs, get m k d = inl vs -> vs = getitem m k /\ vs <> []).
Proof.
  unfold get. destruct (contains m k) eqn:Hc.
  - assert (Hn : getitem m k <> []).
    { intros H. apply contains_getitem in H. congruence. }
    split; [split; [discriminate | contradiction]|].
    intros vs Hv. inversion Hv; subst. auto.
  - apply contains_getitem in Hc. split; [tauto|]. discriminate.
Qed.

(** X2: [get_first(k, d)] never raises: it gives the first value of the
    matching entries, or the default when there is none. *)
Theorem get_first_spec {A : Type} (m : ODict) (k : text) (d : A) :
  get_first m k d = Some (match getitem m k with v :: _ => inl v | [] => inr d end).
Proof.
  unfold get_first. destruct (contains m k) eqn:Hc.
  - destruct (getitem m k) eqn:Hg; [|reflexivity].
    apply contains_getitem in Hg. congruence.
  - apply contains_getitem in Hc. rewrite Hc. reflexivity.
Qed.

Lemma dedup_in (seen l : list text) (s : text) :
  In s (dedup seen l) <-> In s seen \/ In s l.
Proof.
  revert seen; induction l as [|a l IH]; intros seen; simpl.
  - rewrite <- in_rev. tauto.
  - destruct (existsb (String.eqb a) seen) eqn:He.
    + rewrite IH. apply existsb_exists in He. destruct He as [b [Hb Hab]].
      apply String.eqb_eq in Hab; subst b. split; [tauto|].
      intros [H|[H|H]]; subst; tauto.
    + rewrite IH. simpl. tauto.
Qed.

Lemma dedup_nodup (seen l : list text) :
  List.NoDup seen -> List.NoDup (dedup seen l).
Proof.
  revert seen; induction l as [|a l IH]; intros seen Hs; simpl.
  - apply NoDup_rev; exact Hs.
  - destruct (existsb (String.eqb a) seen) eqn:He; apply IH; [exact Hs|].
    constructor; [|exact Hs].
    intros Hin. assert (existsb (String.eqb a) seen = true).
    { apply existsb_exists. exists a. split; [exact Hin | apply String.eqb_refl]. }
    congruence.
Qed.

(** X3: [keys()] lists each converted key of the entries exactly once,
    and nothing else. *)
Theorem keys_spec (m : ODict) :
  (forall s, In s (keys m) <-> exists e, In e (lst m) /\ kconv (caseless m) (fst e) = s) /\
  List.NoDup (keys m).
Proof.
  split.
  - intros s. unfold keys. rewrite dedup_in, in_map_iff. simpl.
    split; [intros [[]|[e [He Hin]]]; eauto | intros [e [Hin He]]; right; eauto].
  - apply dedup_nodup. constructor.
Qed.

(** X4: [add(key, value)] appends: [self[k']] gains [value] at its end
    exactly when [k'] matches [key], the length grows by one and [key] is
    then contained. *)
Theorem add_spec (m : ODict) (key value k' : text) :
  getitem (add m key value) k' =
    getitem m k' ++ (if String.eqb (kconv (caseless m) key) (kconv (caseless m) k')
                     then [value] else []) /\
  odict_len (add m key value) = S (odict_len m) /\
  contains (add m key value) key = true.
Proof.
  split; [|split].
  - rewrite !getitem_filter. simpl. rewrite List.filter_app, List.map_app. simpl.
    unfold key_matches at 2. simpl.
    destruct (String.eqb _ _); reflexivity.
  - unfold odict_len, add. simpl. rewrite length_app. simpl. lia.
  - rewrite contains_existsb. simpl. apply existsb_exists.
    exists (key, value). split; [apply in_or_app; right; simpl; auto|].
    unfold key_matches. apply String.eqb_refl.
Qed.

Lemma key_matches_self (c : bool) (k v : text) : key_matches c k (k, v) = true.
Proof. unfold key_matches. apply String.eqb_refl. Qed.

Lemma filter_pairs (c : bool) (k : text) (ws : list text) :
  List.filter (key_matches c k) (map (fun v => (k, v)) ws) = map (fun v => (k, v)) ws.
Proof. induction ws as [|w ws IH]; simpl; rewrite ?key_matches_self, ?IH; reflexivity. Qed.

Lemma filter_pairs_other (c : bool) (k k' : text) (ws : list text) :
  kconv c k' <> kconv c k ->
  List.filter (key_matches c k') (map (fun v => (k, v)) ws) = [].
Proof.
  intros Hne. induction ws as [|w ws IH]; simpl; [reflexivity|].
  unfold key_matches at 1. simpl.
  destruct (String.eqb_spec (kconv c k) (kconv c k')); [congruence | exact IH].
Qed.

Lemma filter_rewrite_matches (c : bool) (k : text) (vl : list text) :
  forall l j,
    List.filter (key_matches c k) (rewrite_matches c k vl j l) =
    map (fun v => (k, v)) (firstn (count_matches c k l) (skipn j vl)).
Proof.
  unfold count_matches.
  induction l as [|e l IH]; intros j; simpl; [reflexivity|].
  destruct (key_matches c k e) eqn:Hm; simpl.
  - rewrite (skipn_nth_error vl j).
    destruct (nth_error vl j) as [v|] eqn:Hn; simpl.
    + rewrite key_matches_self, IH. reflexivity.
    + rewrite IH. apply nth_error_None in Hn.
      rewrite skipn_all2 by lia. destruct (length _); reflexivity.
  - rewrite Hm. apply IH.
Qed.

Lemma filter_rewrite_other (c : bool) (k k' : text) (vl : list text) :
  kconv c k' <> kconv c k ->
  forall l j,
    List.filter (key_matches c k') (rewrite_matches c k vl j l) =
    List.filter (key_matches c k') l.
Proof.
  intros Hne. induction l as [|e l IH]; intros j; simpl; [reflexivity|].
  assert (Hkk : key_matches c k' (k, "")%string = false).
  { unfold key_matches. simpl. apply String.eqb_neq. congruence. }
  destruct (key_matches c k e) eqn:Hm.
  - assert (He : key_matches c k' e = false).
    { unfold key_matches in *. apply String.eqb_eq in Hm. rewrite Hm.
      apply String.eqb_neq. congruence. }
    rewrite He. destruct (nth_error vl (j)) as [v|]; simpl; [|apply IH].
    unfold key_matches at 1. simpl.
    destruct (String.eqb_spec (kconv c k) (kconv c k')); [congruence | apply IH].
  - simpl. rewrite IH. reflexivity.
Qed.

Ltac min_cases :=
  repeat match goal with
  | |- context [Nat.min ?a ?b] => destruct (Nat.min_spec a b) as [[? ->]|[? ->]]
  end.

Lemma count_rewrite_length (c : bool) (k : text) (vl : list text) :
  forall l j,
    length (rewrite_matches c k vl j l) =
    length l - count_matches c k l + Nat.min (count_matches c k l) (length vl - j) /\
    count_matches c k l <= length l.
Proof.
  unfold count_matches.
  induction l as [|e l IH]; intros j; simpl; [split; [min_cases|]; lia|].
  destruct (key_matches c k e) eqn:Hm; cbn [length].
  - destruct (IH (S j)) as [H1 H2].
    destruct (nth_error vl j) as [v|] eqn:Hn; cbn [length]; rewrite H1.
    + assert (j < length vl) by (apply nth_error_Some; congruence).
      replace (length vl - j) with (S (length vl - S j)) by lia.
      rewrite <- Nat.succ_min_distr. split; [|lia]. min_cases; lia.
    + apply nth_error_None in Hn.
      replace (length vl - j) with 0 by lia. replace (length vl - S j) with 0 by lia.
      rewrite !Nat.min_0_r. split; lia.
  - destruct (IH j) as [H1 H2]. rewrite H1. split; [|lia]. min_cases; lia.
Qed.


(** X5: after [set_values(k, vl)] with a list, [self[k]] is exactly
    [vl], the values of every key of another converted form are as
    before, and the length is the old one minus the old matches plus the
    number of values. *)
Theorem setitem_readback (m : ODict) (k : text) (vl : list text) :
  getitem (fst (setitem m k (VAList vl))) k = vl /\
  (forall k', kconv (caseless m) k' <> kconv (caseless m) k ->
     getitem (fst (setitem m k (VAList vl))) k' = getitem m k') /\
  odict_len (fst (setitem m k (VAList vl))) =
    odict_len m - count_matches (caseless m) k (lst m) + length vl.
Proof.
  rewrite setitem_list_spec. simpl. unfold set_values_spec.
  split; [|split].
  - rewrite getitem_filter. simpl. rewrite List.filter_app, filter_pairs,
      filter_rewrite_matches, <- List.map_app. simpl.
    rewrite firstn_skipn, map_map. simpl. apply map_id.
  - intros k' Hne. rewrite !getitem_filter. simpl.
    rewrite List.filter_app, filter_pairs_other by exact Hne.
    rewrite filter_rewrite_other by exact Hne. rewrite app_nil_r. reflexivity.
  - unfold odict_len. simpl. rewrite length_app, length_map, length_skipn.
    destruct (count_rewrite_length (caseless m) k vl (lst m) 0) as [H1 H2].
    rewrite H1. lia.
Qed.


Lemma filter_loop_spec (c : bool) (k : text) :
  forall l new, filter_loop c (kconv c k) new l =
                new ++ List.filter (fun e => negb (key_matches c k e)) l.
Proof.
  induction l as [|i l IH]; intros new; simpl; [rewrite app_nil_r; reflexivity|].
  change (String.eqb (kconv c (fst i)) (kconv c k)) with (key_matches c k i).
  destruct (key_matches c k i); simpl; rewrite IH; [reflexivity|].
  rewrite <- app_assoc; reflexivity.
Qed.

Lemma delitem_lst (m : ODict) (k : text) :
  lst (delitem m k) = List.filter (fun e => negb (key_matches (caseless m) k e)) (lst m).
Proof. unfold delitem, filter_lst. simpl. apply filter_loop_spec. Qed.

(** X7: after [delete(k)], [k] is not contained and [self[k]] is empty,
    every key of another converted form keeps its values, the length
    drops by the number of matches, and deleting again changes nothing. *)
Theorem delitem_spec (m : ODict) (k : text) :
  getitem (delitem m k) k = [] /\
  contains (delitem m k) k = false /\
  (forall k', kconv (caseless m) k' <> kconv (caseless m) k ->
     getitem (delitem m k) k' = getitem m k') /\
  odict_len (delitem m k) = odict_len m - count_matches (caseless m) k (lst m) /\
  delitem (delitem m k) k = delitem m k.
Proof.
  assert (H0 : getitem (delitem m k) k = []).
  { rewrite getitem_filter, delitem_lst. simpl.
    induction (lst m) as [|e l IH]; simpl; [reflexivity|].
    destruct (key_matches (caseless m) k e) eqn:He; simpl; [exact IH|].
    rewrite He. exact IH. }
  split; [exact H0|split; [apply contains_getitem; exact H0|split; [|split]]].
  - intros k' Hne. rewrite !getitem_filter, delitem_lst. simpl. f_equal.
    induction (lst m) as [|e l IH]; simpl; [reflexivity|].
    destruct (key_matches (caseless m) k e) eqn:He; simpl.
    + assert (He' : key_matches (caseless m) k' e = false).
      { unfold key_matches in *. apply String.eqb_eq in He. rewrite He.
        apply String.eqb_neq. congruence. }
      rewrite He'. exact IH.
    + destruct (key_matches (caseless m) k' e); rewrite IH; reflexivity.
  - unfold odict_len, count_matches. rewrite delitem_lst.
    induction (lst m) as [|e l IH]; simpl; [reflexivity|].
    assert (Hle : length (List.filter (key_matches (caseless m) k) l) <= length l)
      by apply filter_length_le.
    destruct (key_matches (caseless m) k e); simpl; lia.
  - destruct m as [c l]. unfold delitem. cbn [caseless lst]. f_equal.
    unfold filter_lst. rewrite !filter_loop_spec. cbn [app].
    clear H0. induction l as [|e l IH]; simpl; [reflexivity|].
    destruct (key_matches c k e) eqn:He; simpl; [exact IH|].
    rewrite He. simpl. rewrite IH. reflexivity.
Qed.

(** X8: [extend(other)] concatenates: a key's values are those of [self]
    followed by those in [other] (compared with [self]'s key conversion),
    the lengths add up, and the wire format is the two formats one after
    the other. *)
Theorem extend_spec (m o : ODict) (k : text) :
  getitem (extend m o) k = getitem m k ++ getitem (mkODict (caseless m) (lst o)) k /\
  odict_len (extend m o) = odict_len m + odict_len o /\
  format (extend m o) = format m ++ format o.
Proof.
  split; [|split].
  - rewrite !getitem_filter. simpl. rewrite List.filter_app, List.map_app. reflexivity.
  - unfold odict_len, extend. simpl. apply length_app.
  - rewrite !(proj1 (proj2 (format_spec_ok _))). unfold format_spec. simpl.
    rewrite List.map_app, List.concat_app. reflexivity.
Qed.

Lemma str_in_empty (s : text) : str_in EmptyString s = true.
Proof. destruct s; reflexivity. Qed.

Lemma lower_char_idem (a : ascii) : lower_char (lower_char a) = lower_char a.
Proof. destruct a as [[] [] [] [] [] [] [] []]; vm_compute; reflexivity. Qed.

Lemma lower_idem (s : text) : lower (lower s) = lower s.
Proof. induction s as [|a s IH]; simpl; rewrite ?lower_char_idem, ?IH; reflexivity. Qed.

Lemma in_any_loop_existsb (cv : bool) (value : text) (vs : list text) :
  in_any_loop cv value vs = existsb (fun i => str_in value (if cv then lower i else i)) vs.
Proof.
  induction vs as [|i vs IH]; simpl; [reflexivity|].
  rewrite IH. destruct (str_in _ _); reflexivity.
Qed.

(** X9: [in_any(key, value, caseless)] tests whether [value] is a
    substring of one of [self[key]] (both lower-cased when [caseless]);
    it is false when [key] is missing, the empty [value] is found exactly
    when [key] is contained, and with [caseless] the case of [value] does
    not matter. *)
Theorem in_any_spec (m : ODict) (key value : text) (cv : bool) :
  in_any m key value cv =
    existsb (fun i => str_in (if cv then lower value else value) (if cv then lower i else i))
            (getitem m key) /\
  (contains m key = false -> in_any m key value cv = false) /\
  in_any m key EmptyString cv = contains m key /\
  in_any m key value true = in_any m key (lower value) true.
Proof.
  assert (Hs : forall v, in_any m key v cv =
    existsb (fun i => str_in (if cv then lower v else v) (if cv then lower i else i))
            (getitem m key)).
  { intros v. unfold in_any. apply in_any_loop_existsb. }
  split; [apply Hs|split; [|split]].
  - intros Hc. apply contains_getitem in Hc. rewrite Hs, Hc. reflexivity.
  - rewrite Hs. replace (if cv then lower EmptyString else EmptyString) with EmptyString
      by (destruct cv; reflexivity).
    destruct (contains m key) eqn:Hc.
    + destruct (getitem m key) as [|i vs] eqn:Hg.
      * apply contains_getitem in Hg. congruence.
      * simpl. rewrite str_in_empty. reflexivity.
    + apply contains_getitem in Hc. rewrite Hc. reflexivity.
  - unfold in_any. rewrite lower_idem. reflexivity.
Qed.

Theorem in_any_spec_witness :
  contains (mkODict false [("a", "x")]%string) "b"%string = false /\
  in_any (mkODict false [("a", "x")]%string) "b"%string "x"%string false = false.
Proof.
  split; [reflexivity|].
  exact (proj1 (proj2 (in_any_spec (mkODict false [("a", "x")]%string) "b"%string "x"%string false))
           eq_refl).
Defined.

(** X10: [match_re(expr)] searches each ["key: value"] line; it is false
    on an empty map and, over [extend], is true iff it is true on one of
    the two parts. *)
Theorem match_re_spec (re_search : text -> text -> bool) (m o : ODict) (expr : text) :
  match_re re_search m expr =
    existsb (fun e => re_search expr (fst e ++ ": " ++ snd e)%string) (lst m) /\
  match_re re_search (mkODict (caseless m) []) expr = false /\
  match_re re_search (extend m o) expr = match_re re_search m expr || match_re re_search o expr.
Proof.
  assert (Hs : forall l, match_re_loop re_search expr l =
    existsb (fun e => re_search expr (fst e ++ ": " ++ snd e)%string) l).
  { induction l as [|[k v] l IH]; simpl; [reflexivity|].
    rewrite IH. destruct (re_search _ _); reflexivity. }
  unfold match_re. rewrite !Hs. split; [reflexivity|split; [reflexivity|]].
  simpl. apply existsb_app.
Qed.




(** ** Sharing through [__init__], [items] and [load_state] *)

Lemma read_entries_grows (h h' : heap) (vs : list val) (es : list entry) :
  read_entries h vs = Some es -> grows h h' -> read_entries h' vs = Some es.
Proof.
  intros He [GL GE]. rewrite (read_entries_frame h h'); [exact He|].
  intros r Hr. apply GE. eapply read_entries_valid; eauto.
Qed.

Lemma read_lst_grows (h h' : heap) (l : loc) (vs : list val) :
  read_lst h l = Some vs -> grows h h' -> read_lst h' l = Some vs.
Proof.
  unfold read_lst. intros Hl [GL GE].
  destruct (h !! l) as [o|] eqn:Ho; [|discriminate].
  rewrite GE by (eapply lookup_lt_Some; exact Ho). rewrite Ho. exact Hl.
Qed.

Lemma read_lst_lookup (h : heap) (l : loc) (vs : list val) :
  read_lst h l = Some vs -> h !! l = Some (OList vs).
Proof. unfold read_lst. destruct (h !! l) as [[]|]; congruence. Qed.

Lemma view_grows (h h' : heap) (y : loc) (d : ODict) :
  view h y = Some d -> grows h h' -> view h' y = Some d.
Proof.
  intros Hv [GL GE]. apply (view_frame h h' y d Hv).
  intros l Hl. apply GE. eapply view_reach_valid; eauto.
Qed.

Lemma read_entries_app (h : heap) (a b : list val) (ea eb : list entry) :
  read_entries h a = Some ea -> read_entries h b = Some eb ->
  read_entries h (a ++ b) = Some (ea ++ eb).
Proof.
  revert ea; induction a as [|v a IH]; intros ea Ha Hb; simpl in *.
  - inversion Ha; subst; exact Hb.
  - destruct (read_entry h v) as [e|]; [|discriminate].
    destruct (read_entries h a) as [ea'|]; [|discriminate].
    inversion Ha; subst. rewrite (IH ea' eq_refl Hb). reflexivity.
Qed.

Lemma read_entries_in (h : heap) :
  forall vs es r, read_entries h vs = Some es -> In r (refs vs) ->
    exists a b, h !! r = Some (OList [VStr a; VStr b]).
Proof.
  induction vs as [|[s|l] vs IH]; intros es r He Hr; simpl in *; [contradiction|discriminate|].
  destruct (h !! l) as [[[|[a|] [|[b|] []]]|]|] eqn:Hl; try discriminate.
  destruct (read_entries h vs) as [es'|] eqn:Hes; [|discriminate].
  destruct Hr as [->|Hr]; [eauto|]. eapply IH; eauto.
Qed.

(** An entry object is never the list that holds it. *)
Lemma read_entries_not_self (h : heap) (l : loc) (vs : list val) (es : list entry) :
  read_lst h l = Some vs -> read_entries h vs = Some es -> ~ In l (refs vs).
Proof.
  intros Hl He Hin. destruct (read_entries_in h vs es l He Hin) as [a [b Hab]].
  apply read_lst_lookup in Hl. rewrite Hl in Hab. inversion Hab; subst.
  simpl in He. discriminate.
Qed.

(** The only instance among the objects of [y] is [y] itself. *)
Lemma reach_inst (h : heap) (y : loc) (dy : ODict) (l : loc) (c : bool) (l' : loc) :
  view h y = Some dy -> In l (reach h y) -> h !! l = Some (OInst c l') -> l = y.
Proof.
  unfold view, reach. intros Hv Hin Hl.
  destruct (h !! y) as [[vs|cy ly]|] eqn:Hy; try discriminate.
  destruct (read_lst h ly) as [vs|] eqn:Hly; [|discriminate].
  destruct (read_entries h vs) as [es|] eqn:Hes; [|discriminate].
  destruct Hin as [->|[->|Hin]]; [reflexivity| |].
  - apply read_lst_lookup in Hly. congruence.
  - destruct (read_entries_in h vs es l Hes Hin) as [a [b Hab]]. congruence.
Qed.

(** [add] on [x] appends to the list [l] of [x]: every instance holding
    [l] sees the new entry. *)
Lemma h_add_view (h : heap) (x y : loc) (c cy : bool) (l : loc) (dy : ODict) (k v : text) :
  h !! x = Some (OInst c l) -> h !! y = Some (OInst cy l) -> view h y = Some dy ->
  view (h_add h x k v) y = Some (add dy k v).
Proof.
  intros Hx Hy Hv. unfold view in Hv. rewrite Hy in Hv.
  destruct (read_lst h l) as [vs|] eqn:Hl; [|discriminate].
  destruct (read_entries h vs) as [es|] eqn:Hes; [|discriminate].
  inversion Hv; subst. clear Hv.
  pose proof (read_lst_lookup _ _ _ Hl) as Hll.
  assert (Hlt : l < length h) by (eapply lookup_lt_Some; exact Hll).
  assert (Hyl : y < length h) by (eapply lookup_lt_Some; exact Hy).
  assert (Hne : y <> l) by congruence.
  unfold h_add. rewrite Hx, Hl. unfold alloc, view.
  rewrite list_lookup_insert_ne by congruence. rewrite lookup_app_l by exact Hyl. rewrite Hy.
  unfold read_lst. rewrite list_lookup_insert_eq by (rewrite length_alloc; lia).
  erewrite read_entries_app; [reflexivity| |].
  - rewrite (read_entries_frame h); [exact Hes|].
    intros r Hr. rewrite list_lookup_insert_ne.
    + apply lookup_app_l. eapply read_entries_valid; eauto.
    + intros Heq. rewrite <- Heq in Hr. exact (read_entries_not_self h l vs es Hl Hes Hr).
  - simpl. rewrite list_lookup_insert_ne by lia. rewrite lookup_alloc_new. reflexivity.
Qed.

(** [add] on [x] leaves alone an instance none of whose objects is the
    list of [x]. *)
Lemma h_add_other (h : heap) (x y : loc) (c : bool) (l : loc) (dy : ODict) (k v : text) :
  h !! x = Some (OInst c l) -> view h y = Some dy -> ~ In l (reach h y) ->
  view (h_add h x k v) y = Some dy.
Proof.
  intros Hx Hv Hn. apply (view_frame h _ y dy Hv). intros r Hr.
  unfold h_add. rewrite Hx. destruct (read_lst h l); [|reflexivity].
  unfold alloc. rewrite list_lookup_insert_ne by (intros ->; contradiction).
  apply lookup_app_l. eapply view_reach_valid; eauto.
Qed.

Lemma h_init_spec (h : heap) (c : bool) (l : loc) (vs : list val) (es : list entry) :
  read_lst h l = Some vs -> read_entries h vs = Some es ->
  let '(x, h') := h_init h c l in
  grows h h' /\ S x = length h' /\
  exists l', h' !! x = Some (OInst c l') /\ read_lst h' l' = Some vs /\
    view h' x = Some (mkODict c es) /\
    match vs with [] => l' = length h | _ => l' = l end.
Proof.
  intros Hl Hes. unfold h_init. rewrite Hl.
  assert (Gen : forall h1 l', grows h h1 -> read_lst h1 l' = Some vs ->
            grows h (h1 ++ [OInst c l']) /\ S (length h1) = length (h1 ++ [OInst c l']) /\
            (h1 ++ [OInst c l']) !! length h1 = Some (OInst c l') /\
            read_lst (h1 ++ [OInst c l']) l' = Some vs /\
            view (h1 ++ [OInst c l']) (length h1) = Some (mkODict c es)).
  { intros h1 l' G1 Hl1.
    assert (G2 : grows h (h1 ++ [OInst c l'])) by (eapply grows_trans; [exact G1 | apply grows_alloc]).
    assert (Hl2 : read_lst (h1 ++ [OInst c l']) l' = Some vs)
      by (eapply read_lst_grows; [exact Hl1 | apply grows_alloc]).
    split; [exact G2|split; [rewrite length_alloc; reflexivity|split; [apply lookup_alloc_new|]]].
    split; [exact Hl2|].
    unfold view. rewrite lookup_alloc_new, Hl2.
    rewrite (read_entries_grows h _ vs es Hes G2). reflexivity. }
  destruct vs as [|v0 vs0].
  - simpl in Hes. inversion Hes; subst. unfold alloc.
    assert (G1 : grows h (h ++ [OList []])) by apply grows_alloc.
    assert (Hl1 : read_lst (h ++ [OList []]) (length h) = Some [])
      by (unfold read_lst; rewrite lookup_alloc_new; reflexivity).
    destruct (Gen _ _ G1 Hl1) as [G [L [Hx [Hr Hv]]]].
    split; [exact G|split; [exact L|]]. exists (length h). auto.
  - unfold alloc.
    destruct (Gen h l (grows_refl h) Hl) as [G [L [Hx [Hr Hv]]]].
    split; [exact G|split; [exact L|]]. exists l. auto.
Qed.

(** X14: [items()] copies [lst] shallowly: the new list holds the entry
    objects of the map themselves, is not one of its objects, and
    appending to it leaves the map unchanged. *)
Theorem items_shallow (h : heap) (x : loc) (d : ODict) :
  view h x = Some d ->
  let '(y, h1) := h_items h x in
  grows h h1 /\ view h1 x = Some d /\ ~ In y (reach h1 x) /\
  (exists vs, read_lst h1 y = Some vs /\ read_entries h1 vs = Some (items d) /\
     forall r, In r (refs vs) -> In r (reach h1 x)) /\
  forall v, view (h_list_append h1 y v) x = Some d.
Proof.
  intros Hv. pose proof Hv as Hv0. unfold view in Hv.
  destruct (h !! x) as [[vs0|c l]|] eqn:Hx; try discriminate.
  destruct (read_lst h l) as [vs|] eqn:Hl; [|discriminate].
  destruct (read_entries h vs) as [es|] eqn:Hes; [|discriminate].
  inversion Hv; subst. clear Hv.
  unfold h_items. rewrite Hx, Hl. unfold alloc.
  assert (G : grows h (h ++ [OList vs])) by apply grows_alloc.
  destruct (view_frame h (h ++ [OList vs]) x _ Hv0) as [Hv1 Hr1].
  { intros r Hr. apply lookup_app_l. eapply view_reach_valid; eauto. }
  assert (Hny : ~ In (length h) (reach (h ++ [OList vs]) x)).
  { rewrite Hr1. intros Hin. pose proof (view_reach_valid _ _ _ Hv0 _ Hin). lia. }
  assert (Hry : read_lst (h ++ [OList vs]) (length h) = Some vs)
    by (unfold read_lst; rewrite lookup_alloc_new; reflexivity).
  split; [exact G|split; [exact Hv1|split; [exact Hny|split]]].
  - exists vs. split; [exact Hry|split].
    + unfold items. simpl. eapply read_entries_grows; eauto.
    + intros r Hr. rewrite Hr1. unfold reach. rewrite Hx, Hl. simpl; auto.
  - intros v. unfold h_list_append. rewrite Hry.
    apply (view_frame _ _ x _ Hv1). intros r Hr.
    apply list_lookup_insert_ne. intros Heq. rewrite <- Heq in Hr. contradiction.
Qed.

(** X13: [ODict(lst)] keeps the Python list it is given unless it is
    empty ([self.lst = lst or []]): two maps built on one non-empty list
    share it, so an [add] on the first shows in the second, while two maps
    built on one empty list each get a list of their own. *)
Theorem init_shares_lst (h : heap) (l : loc) (vs : list val) (es : list entry)
        (c1 c2 : bool) (k v : text) :
  read_lst h l = Some vs -> read_entries h vs = Some es ->
  let '(x1, h1) := h_init h c1 l in
  let '(x2, h2) := h_init h1 c2 l in
  view (h_add h2 x1 k v) x1 = Some (add (mkODict c1 es) k v) /\
  view (h_add h2 x1 k v) x2 =
    Some (match vs with [] => mkODict c2 [] | _ => add (mkODict c2 es) k v end).
Proof.
  intros Hl Hes.
  pose proof (h_init_spec h c1 l vs es Hl Hes) as S1.
  destruct (h_init h c1 l) as [x1 h1].
  destruct S1 as [G1 [L1 [l1 [Hx1 [Hr1 [Hv1 Hm1]]]]]].
  pose proof (read_lst_grows h h1 l vs Hl G1) as Hl1.
  pose proof (read_entries_grows h h1 vs es Hes G1) as Hes1.
  pose proof (h_init_spec h1 c2 l vs es Hl1 Hes1) as S2.
  destruct (h_init h1 c2 l) as [x2 h2].
  destruct S2 as [G2 [L2 [l2 [Hx2 [Hr2 [Hv2 Hm2]]]]]].
  assert (Hx1' : h2 !! x1 = Some (OInst c1 l1))
    by (destruct G2 as [_ GE]; rewrite GE by lia; exact Hx1).
  pose proof (view_grows h1 h2 x1 _ Hv1 G2) as Hv1'.
  split; [exact (h_add_view h2 x1 x1 c1 c1 l1 _ k v Hx1' Hx1' Hv1')|].
  destruct vs as [|v0 vs0].
  - simpl in Hes. inversion Hes; subst es.
    apply (h_add_other h2 x1 x2 c1 l1 _ k v Hx1' Hv2).
    assert (Hl1h : h1 !! l1 = Some (OList [])) by (apply read_lst_lookup; exact Hr1).
    assert (Hll1 : l1 < length h1) by (eapply lookup_lt_Some; exact Hl1h).
    assert (Hl12 : h2 !! l1 = Some (OList []))
      by (destruct G2 as [_ GE]; rewrite GE by exact Hll1; exact Hl1h).
    unfold reach. rewrite Hx2, Hr2. simpl. intros [H|[H|[]]]; subst.
    + congruence.
    + lia.
  - subst l1 l2. exact (h_add_view h2 x1 x2 c1 c2 l _ k v Hx1' Hx2 Hv2).
Qed.

(** X15: [load_state] gives [self] a list and entry objects of its own:
    [self] then holds the loaded state, every other map keeps its value
    and shares no object with [self], even one that shared [lst] with
    [self] before. *)
Theorem load_state_unshares (h : heap) (x : loc) (d : ODict) (st : state) :
  view h x = Some d ->
  view (h_load_state h x st) x = Some (load_state d st) /\
  forall y dy, y <> x -> view h y = Some dy ->
    view (h_load_state h x st) y = Some dy /\
    (forall l, In l (reach (h_load_state h x st) x) ->
       ~ In l (reach (h_load_state h x st) y)).
Proof.
  intros Hv. pose proof Hv as Hv0. unfold view in Hv.
  destruct (h !! x) as [[vs0|c l0]|] eqn:Hx; try discriminate.
  destruct (read_lst h l0) as [vs|] eqn:Hl; [|discriminate].
  destruct (read_entries h vs) as [es0|] eqn:Hes; [|discriminate].
  inversion Hv; subst d. clear Hv.
  unfold h_load_state. rewrite Hx.
  destruct (alloc_entries h st) as [h1 es] eqn:Ha.
  destruct (alloc_entries_grows _ _ _ _ Ha) as [[GL GE] [R E]].
  assert (Hxl : x < length h) by (eapply lookup_lt_Some; exact Hx).
  destruct (rebind_spec h1 x c es) as [L [Eq Rr]]; [lia|].
  split.
  - unfold view, rebind, alloc, read_lst.
    rewrite list_lookup_insert_eq by (rewrite length_alloc; lia).
    rewrite list_lookup_insert_ne by lia. rewrite lookup_alloc_new.
    rewrite (read_entries_frame h1).
    + rewrite (E h1 (grows_refl h1)). reflexivity.
    + intros r Hr. specialize (R r Hr). fold (rebind h1 x c es).
      rewrite Eq by lia. reflexivity.
  - intros y dy Hne Hvy.
    assert (Hag : forall l, In l (reach h y) -> rebind h1 x c es !! l = h !! l).
    { intros l Hin. pose proof (view_reach_valid _ _ _ Hvy _ Hin) as Hlt.
      rewrite Eq by (lia || (intros ->; apply Hne; symmetry;
                               exact (reach_inst h y dy x c l0 Hvy Hin Hx))).
      apply GE; exact Hlt. }
    destruct (view_frame h _ y dy Hvy Hag) as [Hv' Hr'].
    split; [exact Hv'|].
    rewrite Rr, Hr'. intros l [H|[H|H]] Hin; subst.
    + apply Hne. symmetry. exact (reach_inst h y dy l c l0 Hvy Hin Hx).
    + pose proof (view_reach_valid _ _ _ Hvy _ Hin). lia.
    + pose proof (view_reach_valid _ _ _ Hvy _ Hin). specialize (R l H). lia.
Qed.

Definition h_ex2 : heap :=
  h_ex ++ [OInst true 1; OList [VStr "Accept"%string; VStr "b"%string]].

Theorem init_shares_lst_witness :
  read_lst h_ex 1 = Some [VRef 2; VRef 2] /\
  read_entries h_ex [VRef 2; VRef 2] = Some (lst d_ex) /\
  view (h_add (snd (h_init (snd (h_init h_ex false 1)) true 1))
              (fst (h_init h_ex false 1)) "k"%string "v"%string)
       (fst (h_init (snd (h_init h_ex false 1)) true 1)) =
    Some (add (mkODict true (lst d_ex)) "k"%string "v"%string).
Proof.
  split; [reflexivity|split; [reflexivity|]].
  exact (proj2 (init_shares_lst h_ex 1 [VRef 2; VRef 2] (lst d_ex) false true
                  "k"%string "v"%string eq_refl eq_refl)).
Defined.

Theorem items_shallow_witness :
  view h_ex 0 = Some d_ex /\
  view (h_list_append (snd (h_items h_ex 0)) (fst (h_items h_ex 0)) (VRef 2)) 0 = Some d_ex.
Proof.
  split; [reflexivity|].
  exact (proj2 (proj2 (proj2 (proj2 (items_shallow h_ex 0 d_ex eq_refl)))) (VRef 2)).
Defined.

Theorem load_state_unshares_witness :
  view h_ex2 0 = Some d_ex /\ view h_ex2 3 = Some (mkODict true (lst d_ex)) /\
  view (h_load_state h_ex2 0 [("Accept", "b")]%string) 3 = Some (mkODict true (lst d_ex)).
Proof.
  split; [reflexivity|split; [reflexivity|]].
  exact (proj1 (proj2 (load_state_unshares h_ex2 0 d_ex [("Accept", "b")]%string eq_refl)
                  3 (mkODict true (lst d_ex)) ltac:(discriminate) eq_refl)).
Defined.

(** ** [__setitem__] and [__delitem__] on the heap *)

Lemma read_entry_entries (h : heap) (i : val) (e : entry) :
  read_entry h i = Some e -> read_entries h [i] = Some [e].
Proof. intros He. simpl. rewrite He. reflexivity. Qed.

Lemma view_rebind (h : heap) (x : loc) (c0 c : bool) (l0 : loc) (new : list val) (es : list entry) :
  h !! x = Some (OInst c0 l0) -> read_entries h new = Some es ->
  view (rebind h x c new) x = Some (mkODict c es).
Proof.
  intros Hx Hes.
  assert (Hxl : x < length h) by (eapply lookup_lt_Some; exact Hx).
  destruct (rebind_spec h x c new Hxl) as [_ [Eq _]].
  unfold view. unfold rebind at 1. unfold alloc.
  rewrite list_lookup_insert_eq by (rewrite length_alloc; lia).
  unfold read_lst. unfold rebind, alloc.
  rewrite list_lookup_insert_ne by lia. rewrite lookup_alloc_new.
  fold (rebind h x c new).
  rewrite (read_entries_frame h); [rewrite Hes; reflexivity|].
  intros r Hr. apply Eq.
  - eapply read_entries_valid; eauto.
  - intros ->. destruct (read_entries_in h new es x Hes Hr) as [a [b Hab]]. congruence.
Qed.

Lemma rebind_other (h : heap) (x y : loc) (c0 c : bool) (l0 : loc) (new : list val) (dy : ODict) :
  h !! x = Some (OInst c0 l0) -> view h y = Some dy -> y <> x ->
  view (rebind h x c new) y = Some dy.
Proof.
  intros Hx Hv Hne.
  assert (Hxl : x < length h) by (eapply lookup_lt_Some; exact Hx).
  destruct (rebind_spec h x c new Hxl) as [_ [Eq _]].
  apply (view_frame h _ y dy Hv). intros l Hin. apply Eq.
  - eapply view_reach_valid; eauto.
  - intros ->. apply Hne. symmetry. exact (reach_inst h y dy x c0 l0 Hv Hin Hx).
Qed.

Lemma h_filter_entries (c : bool) (k : text) (h : heap) :
  forall vs es, read_entries h vs = Some es ->
  read_entries h (h_filter c (kconv c k) h vs) =
    Some (List.filter (fun e => negb (key_matches c k e)) es).
Proof.
  induction vs as [|i vs IH]; intros es He; simpl in *; [inversion He; reflexivity|].
  destruct (read_entry h i) as [[ik iv]|] eqn:Hi; [|discriminate].
  destruct (read_entries h vs) as [es'|] eqn:Hes; [|discriminate].
  inversion He; subst. unfold key_matches. simpl.
  destruct (String.eqb (kconv c ik) (kconv c k)); simpl; rewrite (IH es' eq_refl); [reflexivity|].
  rewrite Hi. reflexivity.
Qed.

Lemma h_setitem_walk_entries (c : bool) (kc k : text) :
  forall vs h newv vl h1 newv' rest es newe,
    h_setitem_walk c kc k h newv vl vs = (h1, newv', rest) ->
    read_entries h vs = Some es -> read_entries h newv = Some newe ->
    grows h h1 /\ read_entries h1 newv' = Some (fst (setitem_walk c kc k newe vl es)) /\
    rest = snd (setitem_walk c kc k newe vl es).
Proof.
  induction vs as [|i vs IH]; intros h newv vl h1 newv' rest es newe Hw He Hn; simpl in Hw, He.
  - inversion Hw; inversion He; subst. split; [apply grows_refl|auto].
  - destruct (read_entry h i) as [[ik iv]|] eqn:Hi; [|discriminate].
    destruct (read_entries h vs) as [es'|] eqn:Hes; [|discriminate].
    inversion He; subst es. simpl.
    destruct (String.eqb (kconv c ik) kc).
    + destruct vl as [|v vl'].
      * exact (IH _ _ _ _ _ _ _ _ Hw Hes Hn).
      * assert (G : grows h (h ++ [OList [VStr k; VStr v]])) by apply grows_alloc.
        assert (Hn' : read_entries (h ++ [OList [VStr k; VStr v]]) (newv ++ [VRef (length h)])
                      = Some (newe ++ [(k, v)])).
        { apply read_entries_app; [eapply read_entries_grows; eauto|].
          simpl. rewrite lookup_alloc_new. reflexivity. }
        destruct (IH _ _ _ _ _ _ _ _ Hw (read_entries_grows _ _ _ _ Hes G) Hn') as [G1 R1].
        split; [eapply grows_trans; eauto | exact R1].
    + apply (IH _ _ _ _ _ _ _ _ Hw Hes).
      apply read_entries_app; [exact Hn|]. apply read_entry_entries. exact Hi.
Qed.

Lemma h_setitem_drain_entries (k : text) :
  forall vl h newv h2 newv2 newe,
    h_setitem_drain k h newv vl = (h2, newv2) ->
    read_entries h newv = Some newe ->
    grows h h2 /\ read_entries h2 newv2 = Some (setitem_drain k newe vl).
Proof.
  induction vl as [|v vl IH]; intros h newv h2 newv2 newe Hd Hn; simpl in Hd.
  - inversion Hd; subst. split; [apply grows_refl|exact Hn].
  - assert (G : grows h (h ++ [OList [VStr k; VStr v]])) by apply grows_alloc.
    assert (Hn' : read_entries (h ++ [OList [VStr k; VStr v]]) (newv ++ [VRef (length h)])
                  = Some (newe ++ [(k, v)])).
    { apply read_entries_app; [eapply read_entries_grows; eauto|].
      simpl. rewrite lookup_alloc_new. reflexivity. }
    destruct (IH _ _ _ _ _ Hd Hn') as [G1 R1].
    split; [eapply grows_trans; eauto | exact R1].
Qed.

(** X16: [__delitem__] on the heap gives [self] the value of the pure
    [delete], in a new list: every other map keeps its value, also one
    that shared [lst] with [self] (unlike [add], which appends in place). *)
Theorem delitem_heap (h : heap) (x : loc) (d : ODict) (k : text) :
  view h x = Some d ->
  view (h_delitem h x k) x = Some (delitem d k) /\
  forall y dy, y <> x -> view h y = Some dy -> view (h_delitem h x k) y = Some dy.
Proof.
  intros Hv. pose proof Hv as Hv0. unfold view in Hv.
  destruct (h !! x) as [[vs0|c l0]|] eqn:Hx; try discriminate.
  destruct (read_lst h l0) as [vs|] eqn:Hl; [|discriminate].
  destruct (read_entries h vs) as [es|] eqn:Hes; [|discriminate].
  inversion Hv; subst d. clear Hv.
  unfold h_delitem. rewrite Hx, Hl. split.
  - erewrite view_rebind; [|exact Hx|apply h_filter_entries; exact Hes].
    f_equal. unfold delitem, filter_lst. simpl. rewrite filter_loop_spec. reflexivity.
  - intros y dy Hne Hvy. exact (rebind_other h x y c c l0 _ dy Hx Hvy Hne).
Qed.

(** X17: [__setitem__] with a list of values on the heap gives [self]
    the value of the pure [set_values], in a new list: every other map
    keeps its value, also one that shared [lst] with [self]. *)
Theorem setitem_heap (h : heap) (x : loc) (d : ODict) (k : text) (vl : list text) :
  view h x = Some d ->
  view (fst (h_setitem h x k (VAList vl))) x = Some (fst (setitem d k (VAList vl))) /\
  forall y dy, y <> x -> view h y = Some dy ->
    view (fst (h_setitem h x k (VAList vl))) y = Some dy.
Proof.
  intros Hv. pose proof Hv as Hv0. unfold view in Hv.
  destruct (h !! x) as [[vs0|c l0]|] eqn:Hx; try discriminate.
  destruct (read_lst h l0) as [vs|] eqn:Hl; [|discriminate].
  destruct (read_entries h vs) as [es|] eqn:Hes; [|discriminate].
  inversion Hv; subst d. clear Hv.
  unfold h_setitem, setitem. rewrite Hx, Hl. cbn [caseless lst].
  destruct (h_setitem_walk c (kconv c k) k h [] vl vs) as [[h1 new] rest] eqn:Hw.
  destruct (h_setitem_walk_entries _ _ _ _ _ _ _ _ _ _ _ _ Hw Hes eq_refl) as [G1 [R1 E1]].
  destruct (setitem_walk c (kconv c k) k [] vl es) as [pnew prest] eqn:Hpw.
  cbn [fst snd] in R1, E1. subst rest.
  destruct (h_setitem_drain k h1 new prest) as [h2 new2] eqn:Hd.
  destruct (h_setitem_drain_entries _ _ _ _ _ _ _ Hd R1) as [G2 R2].
  assert (G : grows h h2) by (eapply grows_trans; eauto).
  assert (Hx2 : h2 !! x = Some (OInst c l0))
    by (destruct G as [_ GE]; rewrite GE by (eapply lookup_lt_Some; exact Hx); exact Hx).
  cbn [fst]. split.
  - exact (view_rebind h2 x c c l0 _ _ Hx2 R2).
  - intros y dy Hne Hvy. exact (rebind_other h2 x y c c l0 _ dy Hx2 (view_grows _ _ _ _ Hvy G) Hne).
Qed.

Theorem delitem_heap_witness :
  view h_ex2 0 = Some d_ex /\
  view (h_delitem h_ex2 0 "host"%string) 3 = Some (mkODict true (lst d_ex)).
Proof.
  split; [reflexivity|].
  exact (proj2 (delitem_heap h_ex2 0 d_ex "host"%string eq_refl) 3 _ ltac:(discriminate) eq_refl).
Defined.

Theorem setitem_heap_witness :
  view h_ex2 3 = Some (mkODict true (lst d_ex)) /\
  view (fst (h_setitem h_ex2 3 "host"%string (VAList ["b"%string]))) 3 =
    Some (mkODict true [("host", "b")]%string).
Proof.
  split; [reflexivity|].
  exact (proj1 (setitem_heap h_ex2 3 (mkODict true (lst d_ex)) "host"%string ["b"%string] eq_refl)).
Defined.
